(** * Footprint-csv-tools: geofence visit segmentation

    A shallow embedding of [path_analyze/visits.py], [path_analyze/models.py],
    [path_analyze/geo.py] and of the range-clipped summaries of
    [path_analyze/cli.py] and [streamlit_app.py], with the properties of the
    segmentation engine proved over it.

    Conventions of the embedding.
    - Python [int] is [Z].
    - Python [float] is modelled by the exact rationals [Q]: [x / 1000.0] is
      the exact quotient and the comparisons are the exact ones.  Rounding of
      binary floating point is not modelled.  The order of two quotients
      [ms / 1000.0] and of such a quotient with a parameter is the same in
      both readings; the sum of several seconds values is not, so what is
      proved of added-up time is stated in whole milliseconds.
    - A raised exception is [None] in the [option] monad.
    - Two external collaborators are parameters of the engine: the
      trigonometric great-circle distance [haversine_m] and the time-zone
      conversion [dt_from_epoch_ms] (which raises on an unknown zone name).
      [haversine_m] is taken on the samples where it returns: the statements
      speak of samples that classify inside or outside. *)

From Stdlib Require Import ZArith QArith Qminmax Lqa Lia List String Bool.
From Stdlib Require Import Qround Ascii DecimalString.
From Stdlib Require Import Sorted Permutation.
Import ListNotations.

Open Scope Z_scope.

(** ** Numbers *)

Definition float : Type := Q.
Bind Scope Q_scope with float.

(** [ms / 1000.0] *)
Definition div1000 (ms : Z) : float := (inject_Z ms / 1000)%Q.

(** [x < y] on floats; [x > y] is [Qlt_bool y x]. *)
Definition Qlt_bool (x y : float) : bool := negb (Qle_bool y x).

(** Python's [max(a, b)]: the first argument unless the second is strictly
    greater. *)
Definition py_max (a b : float) : float := if Qlt_bool a b then b else a.

(** The exception monad. *)
Definition bind {A B : Type} (m : option A) (k : A -> option B) : option B :=
  match m with
  | Some a => k a
  | None => None
  end.

Notation "x <- m ;; k" := (bind m (fun x => k))
  (at level 61, m at next level, right associativity).

(** ** models.py *)

Record TrackPoint : Type := mkTrackPoint {
  geo_time_ms : Z;
  latitude : float;
  longitude : float;
  altitude_m : float;
  speed_mps : float;
  horizontal_accuracy_m : float;
  location_type : Z
}.

(** A timezone-aware [datetime]: an instant and the name of its zone. *)
Record datetime : Type := mkDatetime {
  instant_ms : Z;
  zone : string
}.

Record Visit : Type := mkVisit {
  visit_id : Z;
  start_dt : datetime;
  end_dt : datetime;
  start_ms : Z;
  end_ms : Z;
  points : Z;
  method : string
}.

(** [Visit.duration_seconds] *)
Definition duration_seconds (self : Visit) : float :=
  py_max 0%Q (div1000 (end_ms self - start_ms self)).

(** ** visits.py: parameters *)

Record GeofenceCircle : Type := mkGeofenceCircle {
  center_lat : float;
  center_lon : float;
  radius_m : float
}.

Record VisitParams : Type := mkVisitParams {
  tz_name : string;
  max_gap_seconds : float;
  exit_grace_seconds : float;
  transition_gap_seconds : float;
  min_dwell_seconds : float
}.

(** The defaults of the dataclass: 12 h, 5 min, 10 min, 60 s. *)
Definition default_params (tz : string) : VisitParams :=
  mkVisitParams tz 43200%Q 300%Q 600%Q 60%Q.

(** ** visits.py: [_boundary_ms] *)

Definition _boundary_ms (prev_ms cur_ms : Z) (max_gap_s : float)
    (prefer : string) : Z :=
  if cur_ms <? prev_ms then prev_ms
  else
    let gap_s := div1000 (cur_ms - prev_ms) in
    if Qle_bool gap_s max_gap_s then prev_ms + (cur_ms - prev_ms) / 2
    else if String.eqb prefer "prev" then prev_ms else cur_ms.

(** ** visits.py: [VisitsTotal] and [sum_visits] *)

Record VisitsTotal : Type := mkVisitsTotal {
  total_visits : Z;          (* field [visits] *)
  total_seconds : float
}.

Definition sum_visits (visits : list Visit) : VisitsTotal :=
  fold_left
    (fun acc v =>
       mkVisitsTotal (total_visits acc + 1)
                     (total_seconds acc + duration_seconds v)%Q)
    visits (mkVisitsTotal 0 0%Q).

(** ** cli.py: [_cmd_sum_visits], the totals it prints

    [range_start] and [range_end] are the optional bounds after
    [int(parse_dt(...).timestamp() * 1000)]. *)

Definition clipped_seconds (range_start range_end : option Z)
    (v_start v_end : Z) : float :=
  let lo := match range_start with
            | None => v_start
            | Some s => Z.max v_start s
            end in
  let hi := match range_end with
            | None => v_end
            | Some e => Z.min v_end e
            end in
  py_max 0%Q (div1000 (hi - lo)).

Definition _cmd_sum_visits (visits : list Visit)
    (range_start range_end : option Z) : VisitsTotal :=
  match range_start, range_end with
  | None, None => sum_visits visits
  | _, _ =>
      let total_s :=
        fold_left
          (fun acc v =>
             (acc + clipped_seconds range_start range_end
                      (start_ms v) (end_ms v))%Q)
          visits 0%Q in
      mkVisitsTotal (Z.of_nat (List.length visits)) total_s
  end.

(** ** streamlit_app.py: [_overlap_seconds] and the totals of [main] *)

Definition _overlap_seconds (visit : Visit) (start_ms' end_ms_exclusive : Z)
    : float :=
  let lo := Z.max (start_ms visit) start_ms' in
  let hi := Z.min (end_ms visit) end_ms_exclusive in
  py_max 0%Q (div1000 (hi - lo)).

(** The loop of [main] over the visits: [hit] and [total_s]. *)
Definition main_totals (visits : list Visit) (start_ms' end_ms' : Z)
    : VisitsTotal :=
  fold_left
    (fun acc v =>
       let s := _overlap_seconds v start_ms' end_ms' in
       if Qle_bool s 0%Q then acc
       else mkVisitsTotal (total_visits acc + 1) (total_seconds acc + s)%Q)
    visits (mkVisitsTotal 0 0%Q).

(** ** streamlit_app.py: the days of a range and the per-day seconds of
    [main]

    A [date] is modelled by its ordinal, so that [d + timedelta(days=1)] is
    [d + 1].  The zone is fixed and known; [local_midnight_ms d] stands for
    [int(datetime.combine(d, time.min).replace(tzinfo=tz).timestamp() * 1000)]. *)

Section Days.
Variable local_midnight_ms : Z -> Z.

Definition _range_to_epoch_ms (start_d end_d : Z) : Z * Z :=
  (local_midnight_ms start_d, local_midnight_ms (end_d + 1)).

(** [while cur <= end_d], with the number of iterations left. *)
Fixpoint day_loop (n : nat) (cur : Z) : list (Z * Z * Z) :=
  match n with
  | O => []
  | S n' =>
      (cur, local_midnight_ms cur, local_midnight_ms (cur + 1))
      :: day_loop n' (cur + 1)
  end.

Definition _day_ranges (start_d end_d : Z) : list (Z * Z * Z) :=
  day_loop (Z.to_nat (end_d - start_d + 1)) start_d.

(** [day_seconds[d] += ds] on a dict kept as an association list; [None] is
    the [KeyError] of a missing key. *)
Fixpoint dict_add (d : Z) (ds : float) (day_seconds : list (Z * float))
    : option (list (Z * float)) :=
  match day_seconds with
  | [] => None
  | (k, x) :: rest =>
      if k =? d then Some ((k, (x + ds)%Q) :: rest)
      else rest' <- dict_add d ds rest ;; Some ((k, x) :: rest')
  end.

(** The inner loop of [main] over the days, for one visit. *)
Definition add_day_overlaps (v : Visit) (days : list (Z * Z * Z))
    (day_seconds : list (Z * float)) : option (list (Z * float)) :=
  fold_left
    (fun acc day =>
       let '(d, d_start, d_end) := day in
       dict <- acc ;;
       let ds := _overlap_seconds v d_start d_end in
       if Qlt_bool 0 ds then dict_add d ds dict else Some dict)
    days (Some day_seconds).

(** The dict [day_seconds] at the end of the loop of [main] over the
    visits. *)
Definition main_day_seconds (visits : list Visit) (start_d end_d : Z)
    : option (list (Z * float)) :=
  let '(start_ms', end_ms') := _range_to_epoch_ms start_d end_d in
  let days := _day_ranges start_d end_d in
  fold_left
    (fun acc v =>
       dict <- acc ;;
       let s := _overlap_seconds v start_ms' end_ms' in
       if Qle_bool s 0 then Some dict
       else add_day_overlaps v days dict)
    visits (Some (map (fun day => (fst (fst day), 0%Q)) days)).

End Days.

(** Milliseconds of a visit within [a, b). *)
Definition overlap_ms (v : Visit) (a b : Z) : Z :=
  Z.max 0 (Z.min (end_ms v) b - Z.max (start_ms v) a).

(** Milliseconds of a visit within the days of a list, added up. *)
Definition days_overlap_ms (v : Visit) (days : list (Z * Z * Z)) : Z :=
  fold_right (fun day acc => overlap_ms v (snd (fst day)) (snd day) + acc)
    0 days.

(** ** [sorted(points, key=...)]

    Python's [sorted] is stable.  The result of a stable sort is determined
    by the input and the key, so it is modelled by stable insertion: an
    element goes in front of the first element whose key is not smaller. *)

Section Sorting.
Context {A : Type} (key : A -> Z).

Fixpoint insert_by (x : A) (l : list A) : list A :=
  match l with
  | [] => [x]
  | y :: l' => if key x <=? key y then x :: l else y :: insert_by x l'
  end.

Fixpoint sorted (l : list A) : list A :=
  match l with
  | [] => []
  | x :: l' => insert_by x (sorted l')
  end.

(** Ascending keys. *)
Definition key_le (a b : A) : Prop := key a <= key b.
End Sorting.

(** ** Formatting a number of seconds *)

(** [round(x)] of a float: the nearest integer, the even one at a tie. *)
Definition py_round (x : float) : Z :=
  let f := Qfloor x in
  let r := (x - inject_Z f)%Q in
  if Qlt_bool r (1 # 2) then f
  else if Qlt_bool (1 # 2) r then f + 1
  else if Z.even f then f else f + 1.

(** The decimal digits of a natural number. *)
Definition decimal (n : Z) : string :=
  NilZero.string_of_uint (N.to_uint (Z.to_N n)).

(** [digits], with zeros in front up to [width] characters. *)
Fixpoint zeros (n : nat) : string :=
  match n with
  | O => EmptyString
  | S n' => String "0"%char (zeros n')
  end.

Definition zero_pad (width : nat) (digits : string) : string :=
  (zeros (width - String.length digits) ++ digits)%string.

(** [f"{n:02d}"]: at least two characters, the sign of a negative number
    first and counted in the width. *)
Definition fmt_02d (n : Z) : string :=
  if n <? 0 then String "-"%char (zero_pad 1 (decimal (- n)))
  else zero_pad 2 (decimal n).

(** visits.py [_format_hhmmss] *)
Definition _format_hhmmss (seconds : float) : string :=
  let s := py_round seconds in
  let h := s / 3600 in
  let m := (s mod 3600) / 60 in
  let sec := s mod 60 in
  (fmt_02d h ++ ":" ++ fmt_02d m ++ ":" ++ fmt_02d sec)%string.

(** [VisitsTotal.total_hhmmss] *)
Definition total_hhmmss (self : VisitsTotal) : string :=
  _format_hhmmss (total_seconds self).

(** streamlit_app.py [_hhmmss] *)
Definition _hhmmss (seconds : float) : string :=
  let s := py_round (py_max 0 seconds) in
  let h := s / 3600 in
  let m := (s mod 3600) / 60 in
  let sec := s mod 60 in
  (fmt_02d h ++ ":" ++ fmt_02d m ++ ":" ++ fmt_02d sec)%string.

(** ** timeutils.py: [delta_stats] *)

Record DeltaStats : Type := mkDeltaStats {
  count : Z;
  min_s : float;
  median_s : float;
  p95_s : float;
  max_s : float
}.

(** [[(ms[i] - ms[i-1]) / 1000.0 for i in range(1, len(ms))
      if ms[i] >= ms[i-1]]] *)
Fixpoint consecutive_deltas (ms : list Z) : list float :=
  match ms with
  | [] => []
  | a :: rest =>
      match rest with
      | [] => []
      | b :: _ =>
          if b >=? a then div1000 (b - a) :: consecutive_deltas rest
          else consecutive_deltas rest
      end
  end.

(** [list.sort()] on floats, as stable insertion. *)
Fixpoint insert_float (x : float) (l : list float) : list float :=
  match l with
  | [] => [x]
  | y :: l' => if Qle_bool x y then x :: l else y :: insert_float x l'
  end.

Fixpoint sorted_floats (l : list float) : list float :=
  match l with
  | [] => []
  | x :: l' => insert_float x (sorted_floats l')
  end.

(** [deltas[i]] for an index within the list. *)
Definition at_index (deltas : list float) (i : Z) : float :=
  nth (Z.to_nat i) deltas 0%Q.

Definition delta_stats (epoch_ms_sorted : list Z) : option DeltaStats :=
  let ms := epoch_ms_sorted in
  if (List.length ms <? 2)%nat then None
  else
    match consecutive_deltas ms with
    | [] => None
    | d :: ds =>
        let deltas := sorted_floats (d :: ds) in
        let n := Z.of_nat (List.length deltas) in
        let median :=
          if n mod 2 =? 1 then at_index deltas (n / 2)
          else ((1 # 2) * (at_index deltas (n / 2 - 1)
                           + at_index deltas (n / 2)))%Q in
        (* int(0.95 * (n - 1)) *)
        let p95 := at_index deltas
                     (Qfloor ((95 # 100) * inject_Z (n - 1))) in
        Some (mkDeltaStats n (at_index deltas 0) median p95
                (at_index deltas (n - 1)))
    end.

(** ** inspect.py: [inspect_points] *)

Record InspectResult : Type := mkInspectResult {
  fieldnames : list string;
  rows_total : Z;
  rows_parsed : Z;
  rows_skipped : Z;
  min_time_ms : option Z;
  max_time_ms : option Z;
  delta : option DeltaStats;
  min_lat : option float;
  max_lat : option float;
  min_lon : option float;
  max_lon : option float;
  duplicates_geo_time : Z
}.

(** The loop counting [times[i] == times[i - 1]]. *)
Fixpoint count_adjacent_equal (times : list Z) : Z :=
  match times with
  | [] => 0
  | a :: rest =>
      match rest with
      | [] => 0
      | b :: _ =>
          (if b =? a then 1 else 0) + count_adjacent_equal rest
      end
  end.

(** [min(xs)] and [max(xs)] of a non-empty list of floats: the first
    smallest and the first greatest element. *)
Definition py_min_list (x : float) (xs : list float) : float :=
  fold_left (fun m y => if Qlt_bool y m then y else m) xs x.

Definition py_max_list (x : float) (xs : list float) : float :=
  fold_left (fun m y => if Qlt_bool m y then y else m) xs x.

Definition inspect_points (points : list TrackPoint) : InspectResult :=
  match points with
  | [] => mkInspectResult [] 0 0 0 None None None None None None None 0
  | p0 :: rest =>
      let times := sorted (fun t => t) (map geo_time_ms points) in
      let dupe := count_adjacent_equal times in
      let n := Z.of_nat (List.length points) in
      mkInspectResult [] n n 0
        (Some (nth 0 times 0)) (Some (last times 0))
        (delta_stats times)
        (Some (py_min_list (latitude p0) (map latitude rest)))
        (Some (py_max_list (latitude p0) (map latitude rest)))
        (Some (py_min_list (longitude p0) (map longitude rest)))
        (Some (py_max_list (longitude p0) (map longitude rest)))
        dupe
  end.


(** ** Worked inputs

    The concrete runs below use a fence of radius 80 m centred at latitude 0,
    longitude 0.  A sample at the centre is at distance 0 from it; the other
    samples lie at the antipode (latitude 0, longitude 180), half the Earth's
    circumference away (6 371 000 * pi m, about 20 015 087 m).
    [haversine_at] gives these two distances; [utc_datetime] converts in a
    zone that is known. *)

Definition haversine_at (lat1 lon1 lat2 lon2 : float) : float :=
  if Qeq_bool lat1 lat2 && Qeq_bool lon1 lon2 then 0%Q else 20015087%Q.

Definition utc_datetime (epoch_ms : Z) (tz : string) : option datetime :=
  Some (mkDatetime epoch_ms tz).

Definition fence : GeofenceCircle := mkGeofenceCircle 0%Q 0%Q 80%Q.

Definition sample_in (t : Z) : TrackPoint :=
  mkTrackPoint t 0%Q 0%Q 0%Q 0%Q (-1)%Q 0.

Definition sample_out (t : Z) : TrackPoint :=
  mkTrackPoint t 0%Q 180%Q 0%Q 0%Q (-1)%Q 0.

(** ** The segmentation engine *)

(** The local variables of [find_visits] that live across loop iterations.
    [next_visit_id] is the local [visit_id] and [cur_method] the local
    [method]; both are renamed because [Visit] has fields of these names. *)
Record Locals : Type := mkLocals {
  visits : list Visit;
  in_visit : bool;
  visit_start_ms : Z;
  visit_end_ms : Z;
  last_inside_ms : Z;
  outside_started_ms : option Z;
  visit_points : Z;
  next_visit_id : Z;
  cur_method : string;
  prev : TrackPoint;
  prev_inside : bool
}.

(** The three states of the engine, read off the locals. *)
Inductive EngineState : Type := OUTSIDE | INSIDE | INSIDE_PENDING_EXIT.

Definition engine_state (st : Locals) : EngineState :=
  if in_visit st then
    match outside_started_ms st with
    | None => INSIDE
    | Some _ => INSIDE_PENDING_EXIT
    end
  else OUTSIDE.

(** ** Worked states and visit lists *)

(** The locals after two inside samples at 0 s and 60 s: state INSIDE. *)
Definition locals_two_inside : Locals :=
  mkLocals [] true 0 60000 60000 None 2 1 "start_at_first_inside"
    (sample_in 60000) true.

(** The locals after one more, outside, sample at 120 s under a positive
    grace: state INSIDE_PENDING_EXIT. *)
Definition locals_pending : Locals :=
  mkLocals [] true 0 60000 60000 (Some 120000) 2 1 "start_at_first_inside"
    (sample_out 120000) false.

(** The defaults, but for no exit grace at all. *)
Definition params_no_grace : VisitParams :=
  mkVisitParams "UTC" 43200%Q 0%Q 600%Q 60%Q.

(** The parameters of the gap example: [max_gap = 3600]. *)
Definition params_gap : VisitParams :=
  mkVisitParams "UTC" 3600%Q 300%Q 600%Q 60%Q.

Definition utc (epoch_ms : Z) : datetime := mkDatetime epoch_ms "UTC".

(** Two stored visits: [1000, 5000] and [10000, 20000] (ms). *)
Definition stored_visits : list Visit :=
  [mkVisit 1 (utc 1000) (utc 5000) 1000 5000 2 "exit_grace";
   mkVisit 2 (utc 10000) (utc 20000) 10000 20000 3 "exit_grace"].

(** The samples and the two visits of the gap example. *)
Definition gap_points : list TrackPoint :=
  [sample_in 1000; sample_in 61000; sample_in 100000000;
   sample_in 100060000].

Definition gap_visits : list Visit :=
  [mkVisit 1 (utc 1000) (utc 61000) 1000 61000 2 "split_on_inside_gap";
   mkVisit 2 (utc 100000000) (utc 100060000) 100000000 100060000 2
     "restart_after_gap"].

(** Local midnights in UTC, for days counted from the epoch. *)
Definition utc_midnight_ms (d : Z) : Z := d * 86400000.

(** ** Predicates on visits and on the locals, used by the proofs *)

(** A visit of positive duration, at least the minimum dwell. *)
Definition dwell_ok (p : VisitParams) (v : Visit) : Prop :=
  start_ms v < end_ms v /\
  (min_dwell_seconds p <= div1000 (end_ms v - start_ms v))%Q.

(** [v] is over when [w] begins. *)
Definition before (v w : Visit) : Prop := end_ms v <= start_ms w.

(** [v] has the smaller sequence number. *)
Definition id_lt (v w : Visit) : Prop := visit_id v < visit_id w.

(** The emitted numbers increase and stay below the counter. *)
Definition ids_inv (st : Locals) : Prop :=
  StronglySorted id_lt (visits st) /\
  Forall (fun v => visit_id v < next_visit_id st) (visits st).

(** The emitted visits are in chronological order and over by the time of
    the last sample read; an open visit starts after all of them, and its
    running times do not exceed the time of the last sample read. *)
Definition chrono_inv (st : Locals) : Prop :=
  StronglySorted before (visits st) /\
  Forall (fun v => end_ms v <= geo_time_ms (prev st)) (visits st) /\
  (in_visit st = true ->
   visit_end_ms st <= geo_time_ms (prev st) /\
   last_inside_ms st <= geo_time_ms (prev st) /\
   (forall o, outside_started_ms st = Some o -> o <= geo_time_ms (prev st)) /\
   Forall (fun v => end_ms v <= visit_start_ms st) (visits st)).

(** The milliseconds from start to end of the visits of a list, added
    up. *)
Definition total_ms (vs : list Visit) : Z :=
  fold_right (fun v acc => (end_ms v - start_ms v) + acc) 0 vs.

(** ** Method tags *)

(** The tags given when a visit is closed inside the loop. *)
Definition closing_tags : list string :=
  ["split_on_inside_gap"; "exit_grace"]%string.

(** The tags given when a visit is opened. *)
Definition opening_tags : list string :=
  ["start_at_first_inside"; "midpoint_entry"; "start_at_inside";
   "restart_after_gap"]%string.

(** The samples counted by a list of visits. *)
Definition sum_points (vs : list Visit) : Z :=
  fold_right (fun v acc => points v + acc) 0 vs.

(** The samples counted so far, in the emitted visits and in the open one,
    are at most [n]; an open visit counts at least one sample. *)
Definition points_inv (n : Z) (st : Locals) : Prop :=
  Forall (fun v => 1 <= points v) (visits st) /\
  (in_visit st = true -> 1 <= visit_points st) /\
  sum_points (visits st) + (if in_visit st then visit_points st else 0) <= n.

Section Engine.

(** geo.py [haversine_m]: floating-point trigonometry, kept abstract. *)
Variable haversine_m : float -> float -> float -> float -> float.

(** timeutils.py [dt_from_epoch_ms]: looks the zone up and converts;
    [None] when it raises. *)
Variable dt_from_epoch_ms : Z -> string -> option datetime.

(** geo.py [is_inside_circle] *)
Definition is_inside_circle (lat lon center_lat center_lon radius_m : float)
    : bool :=
  Qle_bool (haversine_m lat lon center_lat center_lon) radius_m.

Definition inside (geofence : GeofenceCircle) (p : TrackPoint) : bool :=
  is_inside_circle (latitude p) (longitude p)
    (center_lat geofence) (center_lon geofence) (radius_m geofence).

(** [_append_visit]: returns the list after the call. *)
Definition _append_visit (visits : list Visit)
    (visit_id start_ms end_ms points : Z) (method tz_name : string)
    (min_dwell_s : float) : option (list Visit) :=
  if end_ms <=? start_ms then Some visits
  else if Qlt_bool (div1000 (end_ms - start_ms)) min_dwell_s then Some visits
  else
    sd <- dt_from_epoch_ms start_ms tz_name ;;
    ed <- dt_from_epoch_ms end_ms tz_name ;;
    Some (visits ++ [mkVisit visit_id sd ed start_ms end_ms points method]).

(** One iteration of [for cur in pts[1:]]. *)
Definition loop_body (geofence : GeofenceCircle) (params : VisitParams)
    (st : Locals) (cur : TrackPoint) : option Locals :=
  let cur_inside := inside geofence cur in
  let t := geo_time_ms cur in
  (* the local [gap_s] of the source is computed here and never read *)
  if negb (in_visit st) then
    if negb (prev_inside st) && cur_inside then
      (* entry transition: estimate boundary *)
      Some (mkLocals (visits st) true
              (_boundary_ms (geo_time_ms (prev st)) t
                 (transition_gap_seconds params) "cur")
              t t None 1 (next_visit_id st) "midpoint_entry"
              cur cur_inside)
    else if cur_inside then
      (* inside with no explicit transition *)
      Some (mkLocals (visits st) true t t t None 1 (next_visit_id st)
              "start_at_inside" cur cur_inside)
    else
      Some (mkLocals (visits st) (in_visit st) (visit_start_ms st)
              (visit_end_ms st) (last_inside_ms st) (outside_started_ms st)
              (visit_points st) (next_visit_id st) (cur_method st)
              cur cur_inside)
  else if cur_inside then
    (* inside again: any pending exit is cleared *)
    if (last_inside_ms st >? 0)
       && Qlt_bool (max_gap_seconds params) (div1000 (t - last_inside_ms st))
    then
      vs <- _append_visit (visits st) (next_visit_id st) (visit_start_ms st)
              (last_inside_ms st) (visit_points st) "split_on_inside_gap"
              (tz_name params) (min_dwell_seconds params) ;;
      Some (mkLocals vs true t t t None 1 (next_visit_id st + 1)
              "restart_after_gap" cur cur_inside)
    else
      Some (mkLocals (visits st) true (visit_start_ms st) t t None
              (visit_points st + 1) (next_visit_id st) (cur_method st)
              cur cur_inside)
  else
    (* exit confirmation *)
    let started :=
      match outside_started_ms st with
      | None => t
      | Some o => o
      end in
    let outside_s := if t >=? started then div1000 (t - started) else 0%Q in
    if Qle_bool (exit_grace_seconds params) outside_s then
      let exit_ms := _boundary_ms (last_inside_ms st) started
                       (transition_gap_seconds params) "prev" in
      let visit_end := Z.max (visit_end_ms st) exit_ms in
      vs <- _append_visit (visits st) (next_visit_id st) (visit_start_ms st)
              visit_end (visit_points st) "exit_grace"
              (tz_name params) (min_dwell_seconds params) ;;
      Some (mkLocals vs false (visit_start_ms st) visit_end
              (last_inside_ms st) None 0 (next_visit_id st + 1)
              (cur_method st) cur cur_inside)
    else
      Some (mkLocals (visits st) true (visit_start_ms st) (visit_end_ms st)
              (last_inside_ms st) (Some started) (visit_points st)
              (next_visit_id st) (cur_method st) cur cur_inside).

(** The closing attempt of one iteration, when the iteration makes one: the
    start, end, sample count and tag that the loop body passes to
    [_append_visit], on an inside sample after too long a gap (lines 141-151)
    and on an outside sample once the exit is confirmed (lines 168-186);
    [None] on the branches that make no call. *)
Definition closing_attempt (geofence : GeofenceCircle) (params : VisitParams)
    (st : Locals) (cur : TrackPoint) : option (Z * Z * Z * string) :=
  let cur_inside := inside geofence cur in
  let t := geo_time_ms cur in
  if negb (in_visit st) then None
  else if cur_inside then
    if (last_inside_ms st >? 0)
       && Qlt_bool (max_gap_seconds params) (div1000 (t - last_inside_ms st))
    then
      Some (visit_start_ms st, last_inside_ms st, visit_points st,
            "split_on_inside_gap"%string)
    else None
  else
    let started :=
      match outside_started_ms st with
      | None => t
      | Some o => o
      end in
    let outside_s := if t >=? started then div1000 (t - started) else 0%Q in
    if Qle_bool (exit_grace_seconds params) outside_s then
      let exit_ms := _boundary_ms (last_inside_ms st) started
                       (transition_gap_seconds params) "prev" in
      Some (visit_start_ms st, Z.max (visit_end_ms st) exit_ms,
            visit_points st, "exit_grace"%string)
    else None.

Fixpoint run_loop (geofence : GeofenceCircle) (params : VisitParams)
    (rest : list TrackPoint) (st : Locals) : option Locals :=
  match rest with
  | [] => Some st
  | cur :: rest' =>
      st' <- loop_body geofence params st cur ;;
      run_loop geofence params rest' st'
  end.

(** The locals after the first sample has been classified. *)
Definition initial_locals (geofence : GeofenceCircle) (p0 : TrackPoint)
    : Locals :=
  if inside geofence p0 then
    mkLocals [] true (geo_time_ms p0) (geo_time_ms p0) (geo_time_ms p0)
      None 1 1 "start_at_first_inside" p0 true
  else
    mkLocals [] false 0 0 0 None 0 1 "midpoint" p0 false.

(** The code after the loop. *)
Definition close_at_end (params : VisitParams) (st : Locals)
    : option (list Visit) :=
  if in_visit st then
    let visit_end :=
      if last_inside_ms st >? 0 then last_inside_ms st
      else geo_time_ms (prev st) in
    _append_visit (visits st) (next_visit_id st) (visit_start_ms st)
      visit_end (visit_points st) (cur_method st)
      (tz_name params) (min_dwell_seconds params)
  else Some (visits st).

Definition find_visits (points : list TrackPoint)
    (geofence : GeofenceCircle) (params : VisitParams)
    : option (list Visit) :=
  match sorted geo_time_ms points with
  | [] => Some []
  | p0 :: rest =>
      st <- run_loop geofence params rest (initial_locals geofence p0) ;;
      close_at_end params st
  end.


(** cli.py [_cmd_find_visits]: the visits it writes.  The samples are first
    restricted to the optional range, whose bounds are given here after
    [int(parse_dt(...).timestamp() * 1000)]. *)
Definition _cmd_find_visits (points : list TrackPoint)
    (range_start range_end : option Z) (geofence : GeofenceCircle)
    (params : VisitParams) : option (list Visit) :=
  let points1 :=
    match range_start with
    | Some s => filter (fun p => geo_time_ms p >=? s) points
    | None => points
    end in
  let points2 :=
    match range_end with
    | Some e => filter (fun p => geo_time_ms p <=? e) points1
    | None => points1
    end in
  find_visits points2 geofence params.

(** Number of samples that classify inside. *)
Definition count_inside (geofence : GeofenceCircle)
    (points : list TrackPoint) : Z :=
  Z.of_nat (List.length (filter (inside geofence) points)).

(** * Basic facts *)

(** ** Comparisons on floats *)

Lemma Qlt_bool_true (x y : float) : Qlt_bool x y = true <-> (x < y)%Q.
Proof.
unfold Qlt_bool. rewrite negb_true_iff.
split; intro H.
- apply Qnot_le_lt. intro Hle. apply Qle_bool_iff in Hle. congruence.
- destruct (Qle_bool y x) eqn:E; [|reflexivity].
  apply Qle_bool_iff in E. exfalso. apply (Qlt_not_le _ _ H E).
Qed.

Lemma Qlt_bool_false (x y : float) : Qlt_bool x y = false <-> (y <= x)%Q.
Proof.
unfold Qlt_bool. rewrite negb_false_iff. apply Qle_bool_iff.
Qed.

Lemma Qle_bool_false (x y : float) : Qle_bool x y = false <-> (y < x)%Q.
Proof.
rewrite <- Qlt_bool_true. unfold Qlt_bool.
destruct (Qle_bool x y); simpl; split; congruence.
Qed.

Lemma py_max_lower (a b : float) : (a <= py_max a b)%Q.
Proof.
unfold py_max. destruct (Qlt_bool a b) eqn:E.
- apply Qlt_bool_true in E. apply Qlt_le_weak, E.
- apply Qle_refl.
Qed.

Lemma py_max_positive (b : float) : (0 < b)%Q -> py_max 0%Q b = b.
Proof.
intro H. unfold py_max. apply Qlt_bool_true in H. now rewrite H.
Qed.

Lemma py_max_nonpositive (b : float) : (b <= 0)%Q -> py_max 0%Q b = 0%Q.
Proof.
intro H. unfold py_max. apply Qlt_bool_false in H. now rewrite H.
Qed.

Lemma div1000_pos (ms : Z) : (0 < div1000 ms)%Q <-> 0 < ms.
Proof.
unfold div1000, Qlt, Qdiv, Qmult, Qinv, inject_Z; simpl. lia.
Qed.

Lemma div1000_nonpos (ms : Z) : (div1000 ms <= 0)%Q <-> ms <= 0.
Proof.
  unfold div1000, Qle, Qdiv, Qmult, Qinv, inject_Z; simpl. lia.
Qed.

Lemma div1000_le (a b : Z) : (div1000 a <= div1000 b)%Q <-> a <= b.
Proof.
unfold div1000, Qle, Qdiv, Qmult, Qinv, inject_Z; simpl. lia.
Qed.

(** ** The boundary estimator stays between its two timestamps *)

Lemma _boundary_ms_lower (p c : Z) (g : float) (pf : string) :
p <= _boundary_ms p c g pf.
Proof.
unfold _boundary_ms.
destruct (c <? p) eqn:E; [lia|]. apply Z.ltb_ge in E.
destruct (Qle_bool _ g).
- assert (0 <= (c - p) / 2) by (apply Z.div_pos; lia). lia.
- destruct (String.eqb pf "prev"); lia.
Qed.

Lemma _boundary_ms_upper (p c : Z) (g : float) (pf : string) :
_boundary_ms p c g pf <= Z.max p c.
Proof.
unfold _boundary_ms.
destruct (c <? p) eqn:E; [lia|]. apply Z.ltb_ge in E.
destruct (Qle_bool _ g).
- assert ((c - p) / 2 <= c - p) by (apply Z.div_le_upper_bound; lia). lia.
- destruct (String.eqb pf "prev"); lia.
Qed.

(** ** [sorted] sorts, permutes, and forgets the input order when the keys
    are distinct *)

Section SortingFacts.
Context {A : Type} (key : A -> Z).

Lemma insert_by_perm (x : A) (l : list A) :
  Permutation (insert_by key x l) (x :: l).
Proof.
  induction l as [|y l IH]; simpl.
  - apply Permutation_refl.
  - destruct (key x <=? key y).
    + apply Permutation_refl.
    + eapply Permutation_trans; [apply perm_skip, IH | apply perm_swap].
Qed.

Lemma sorted_perm (l : list A) : Permutation (sorted key l) l.
Proof.
  induction l as [|x l IH]; simpl.
  - constructor.
  - eapply Permutation_trans; [apply insert_by_perm | apply perm_skip, IH].
Qed.

Lemma insert_by_sorted (x : A) (l : list A) :
  StronglySorted (key_le key) l -> StronglySorted (key_le key) (insert_by key x l).
Proof.
  induction 1 as [|y l Hs IH Hy]; simpl.
  - repeat constructor.
  - destruct (key x <=? key y) eqn:E.
    + apply Z.leb_le in E. constructor; [constructor; assumption|].
      constructor; [exact E|].
      eapply Forall_impl; [|exact Hy].
      unfold key_le. intros; lia.
    + apply Z.leb_gt in E. constructor; [exact IH|].
      eapply Permutation_Forall; [apply Permutation_sym, insert_by_perm|].
      constructor; [unfold key_le; lia | exact Hy].
Qed.

Lemma sorted_sorted (l : list A) : StronglySorted (key_le key) (sorted key l).
Proof.
  induction l as [|x l IH]; simpl; [constructor | now apply insert_by_sorted].
Qed.

Lemma NoDup_map_inj_in (l : list A) (a b : A) :
  NoDup (map key l) -> In a l -> In b l -> key a = key b -> a = b.
Proof.
  induction l as [|c l IH]; simpl; [tauto|].
  intros Hnd Ha Hb Hk. inversion Hnd as [|? ? Hnotin Hnd']; subst.
  destruct Ha as [<-|Ha], Hb as [<-|Hb]; auto.
  - exfalso. apply Hnotin. rewrite Hk. now apply in_map.
  - exfalso. apply Hnotin. rewrite <- Hk. now apply in_map.
Qed.

Lemma sorted_perm_unique (l1 l2 : list A) :
  StronglySorted (key_le key) l1 -> StronglySorted (key_le key) l2 ->
  Permutation l1 l2 -> NoDup (map key l1) -> l1 = l2.
Proof.
  intros H1; revert l2.
  induction H1 as [|a l1 Hs1 IH Ha]; intros l2 H2 Hp Hnd.
  - now apply Permutation_nil in Hp.
  - destruct H2 as [|b l2 Hs2 Hb].
    + apply Permutation_sym, Permutation_nil in Hp. discriminate.
    + assert (Hab : a = b).
      { apply (NoDup_map_inj_in (a :: l1)); auto.
        - now left.
        - eapply Permutation_in; [apply Permutation_sym, Hp | now left].
        - assert (Hina : In a (b :: l2))
            by (eapply Permutation_in; [exact Hp | now left]).
          assert (Hinb : In b (a :: l1))
            by (eapply Permutation_in;
                [apply Permutation_sym, Hp | now left]).
          rewrite Forall_forall in Ha, Hb. unfold key_le in Ha, Hb.
          destruct Hina as [->|Hina]; [reflexivity|].
          destruct Hinb as [->|Hinb]; [reflexivity|].
          specialize (Ha _ Hinb). specialize (Hb _ Hina). lia. }
      subst b. f_equal. apply IH; auto.
      * eapply Permutation_cons_inv; exact Hp.
      * now inversion Hnd.
Qed.

Lemma sorted_of_sorted (l : list A) :
  StronglySorted (key_le key) l -> sorted key l = l.
Proof.
  induction 1 as [|a l Hs IH Ha]; simpl; [reflexivity|].
  rewrite IH. destruct l as [|b l]; simpl; [reflexivity|].
  inversion Ha as [|? ? Hab _]; subst. unfold key_le in Hab.
  apply Z.leb_le in Hab. now rewrite Hab.
Qed.

Lemma sorted_permutation_invariant (l l' : list A) :
  NoDup (map key l) -> Permutation l l' -> sorted key l' = sorted key l.
Proof.
  intros Hnd Hp. symmetry. apply sorted_perm_unique.
  - apply sorted_sorted.
  - apply sorted_sorted.
  - eapply Permutation_trans; [apply sorted_perm|].
    eapply Permutation_trans; [exact Hp | apply Permutation_sym, sorted_perm].
  - eapply Permutation_NoDup; [|exact Hnd].
    apply Permutation_map, Permutation_sym, sorted_perm.
Qed.

End SortingFacts.

(** * The boundary estimator *)

(** C3. For all timestamps, threshold and preferred side: an out-of-order
    pair ([cur_time < prev_time]) yields [prev_time]; otherwise, when the gap
    in seconds is at most the threshold, the integer midpoint
    [prev_time + floor((cur_time - prev_time) / 2)]; otherwise [prev_time] when
    the preferred side is "prev" and [cur_time] when it is anything else, in
    particular "cur". *)
Theorem boundary_ms_cases (prev_time cur_time : Z) (threshold : float)
    (prefer : string) :
  (cur_time < prev_time ->
   _boundary_ms prev_time cur_time threshold prefer = prev_time) /\
  (prev_time <= cur_time ->
   (div1000 (cur_time - prev_time) <= threshold)%Q ->
   _boundary_ms prev_time cur_time threshold prefer
   = prev_time + (cur_time - prev_time) / 2) /\
  (prev_time <= cur_time ->
   (threshold < div1000 (cur_time - prev_time))%Q ->
   (prefer = "prev"%string ->
    _boundary_ms prev_time cur_time threshold prefer = prev_time) /\
   (prefer <> "prev"%string ->
    _boundary_ms prev_time cur_time threshold prefer = cur_time) /\
   (prefer = "cur"%string ->
    _boundary_ms prev_time cur_time threshold prefer = cur_time)).
Proof.
  unfold _boundary_ms. repeat split.
  - intro H. apply Z.ltb_lt in H. now rewrite H.
  - intros H Hg. apply Z.ltb_ge in H. rewrite H.
    apply Qle_bool_iff in Hg. now rewrite Hg.
  - intros ->. apply Z.ltb_ge in H. rewrite H.
    apply Qle_bool_false in H0. now rewrite H0.
  - intros Hp. apply Z.ltb_ge in H. rewrite H.
    apply Qle_bool_false in H0. rewrite H0.
    apply String.eqb_neq in Hp. now rewrite Hp.
  - intros ->. apply Z.ltb_ge in H. rewrite H.
    apply Qle_bool_false in H0. now rewrite H0.
Qed.

(** * Durations and totals *)

Lemma py_max_is_max (a b : float) : (py_max a b == Qmax a b)%Q.
Proof.
  unfold py_max. destruct (Qlt_bool a b) eqn:E.
  - apply Qlt_bool_true in E. symmetry. apply Q.max_r. now apply Qlt_le_weak.
  - apply Qlt_bool_false in E. symmetry. now apply Q.max_l.
Qed.

Lemma duration_seconds_nonneg (v : Visit) : (0 <= duration_seconds v)%Q.
Proof. apply py_max_lower. Qed.

Lemma sum_visits_from_nonneg (visits : list Visit) (acc : VisitsTotal) :
  (0 <= total_seconds acc)%Q ->
  (0 <= total_seconds
          (fold_left
             (fun acc v =>
                mkVisitsTotal (total_visits acc + 1)
                  (total_seconds acc + duration_seconds v)%Q)
             visits acc))%Q.
Proof.
  revert acc. induction visits as [|v visits IH]; intros acc Hacc; simpl.
  - exact Hacc.
  - apply IH. simpl.
    pose proof (duration_seconds_nonneg v) as Hv.
    apply (Qplus_le_compat 0 _ 0 _ Hacc) in Hv. now rewrite Qplus_0_l in Hv.
Qed.

(** C10. [Visit.duration_seconds] is [max(0, (end_ms - start_ms) / 1000)]
    for every [Visit] value, whatever the order of its two timestamps (a visit
    rebuilt from an edited file may end before it starts): it is 0 when
    [end_ms <= start_ms], the positive quotient otherwise, and the total of
    [sum_visits] is never negative. *)
Theorem duration_seconds_clamped (v : Visit) (visits : list Visit) :
  (duration_seconds v == Qmax 0 (div1000 (end_ms v - start_ms v)))%Q /\
  (end_ms v <= start_ms v -> duration_seconds v = 0%Q) /\
  (start_ms v < end_ms v ->
   duration_seconds v = div1000 (end_ms v - start_ms v)) /\
  (0 <= duration_seconds v)%Q /\
  (0 <= total_seconds (sum_visits visits))%Q.
Proof.
  repeat split.
  - apply py_max_is_max.
  - intro H. apply py_max_nonpositive.
    apply div1000_nonpos. lia.
  - intro H. apply py_max_positive. apply div1000_pos. lia.
  - apply duration_seconds_nonneg.
  - unfold sum_visits. apply sum_visits_from_nonneg. simpl. apply Qle_refl.
Qed.

(** * The visit filter *)

Lemma bind_Some {A B : Type} (m : option A) (k : A -> option B) (b : B) :
  bind m k = Some b -> exists a, m = Some a /\ k a = Some b.
Proof. destruct m as [a|]; simpl; [eauto | discriminate]. Qed.

Lemma _append_visit_rejects (vs : list Visit) (id s e n : Z)
    (m tz : string) (md : float) :
  e <= s \/ (div1000 (e - s) < md)%Q ->
  _append_visit vs id s e n m tz md = Some vs.
Proof.
  unfold _append_visit. intros [H|H].
  - apply Z.leb_le in H. now rewrite H.
  - apply Qlt_bool_true in H. rewrite H. now destruct (e <=? s).
Qed.

Lemma _append_visit_cases (vs vs' : list Visit) (id s e n : Z)
    (m tz : string) (md : float) :
  _append_visit vs id s e n m tz md = Some vs' ->
  vs' = vs \/
  (s < e /\ (md <= div1000 (e - s))%Q /\
   exists sd ed, vs' = vs ++ [mkVisit id sd ed s e n m]).
Proof.
  unfold _append_visit.
  destruct (e <=? s) eqn:E1; [intros [= <-]; now left|].
  destruct (Qlt_bool _ md) eqn:E2; [intros [= <-]; now left|].
  intro H. apply bind_Some in H as (sd & _ & H).
  apply bind_Some in H as (ed & _ & [= <-]).
  right. apply Z.leb_gt in E1. apply Qlt_bool_false in E2. eauto.
Qed.

Lemma _append_visit_Forall (P : Visit -> Prop) (vs vs' : list Visit)
    (id s e n : Z) (m tz : string) (md : float) :
  (forall sd ed, s < e -> (md <= div1000 (e - s))%Q ->
                 P (mkVisit id sd ed s e n m)) ->
  Forall P vs ->
  _append_visit vs id s e n m tz md = Some vs' ->
  Forall P vs'.
Proof.
  intros HP Hvs H.
  apply _append_visit_cases in H as [->|(Hlt & Hmd & sd & ed & ->)]; auto.
  apply Forall_app. split; auto.
Qed.

(** * One iteration of the loop *)

(** Case analysis on the branch [loop_body] takes. *)
Ltac break_loop H :=
  unfold loop_body in H; cbv zeta in H;
  repeat match type of H with
         | context [if ?c then _ else _] => destruct c eqn:?
         | context [match outside_started_ms ?s with _ => _ end] =>
             destruct (outside_started_ms s) eqn:?
         end.

(** An iteration either leaves the visit list and the counter alone, or
    makes one call of [_append_visit] under the current counter and then
    advances the counter by one. *)
Lemma loop_body_attempt (g : GeofenceCircle) (p : VisitParams)
    (st st' : Locals) (cur : TrackPoint) :
  loop_body g p st cur = Some st' ->
  (visits st' = visits st /\ next_visit_id st' = next_visit_id st) \/
  (exists s e n m,
      _append_visit (visits st) (next_visit_id st) s e n m
        (tz_name p) (min_dwell_seconds p) = Some (visits st') /\
      next_visit_id st' = next_visit_id st + 1).
Proof.
  intro H. break_loop H;
    try (injection H as <-; left; split; reflexivity);
    apply bind_Some in H as (vs & Hvs & [= <-]);
    right; simpl; do 4 eexists; (split; [exact Hvs | reflexivity]).
Qed.

Lemma loop_body_prev (g : GeofenceCircle) (p : VisitParams)
    (st st' : Locals) (cur : TrackPoint) :
  loop_body g p st cur = Some st' -> prev st' = cur.
Proof.
  intro H. break_loop H;
    try (injection H as <-; reflexivity);
    apply bind_Some in H as (vs & Hvs & [= <-]); reflexivity.
Qed.

(** * Every emitted visit has a positive duration of at least the minimum
    dwell *)

Section Dwell.
Variable g : GeofenceCircle.
Variable p : VisitParams.

Lemma _append_visit_dwell (vs vs' : list Visit) (id s e n : Z) (m : string) :
  Forall (dwell_ok p) vs ->
  _append_visit vs id s e n m (tz_name p) (min_dwell_seconds p) = Some vs' ->
  Forall (dwell_ok p) vs'.
Proof.
  apply _append_visit_Forall. intros sd ed Hlt Hmd. split; assumption.
Qed.

Lemma loop_body_dwell (st st' : Locals) (cur : TrackPoint) :
  Forall (dwell_ok p) (visits st) ->
  loop_body g p st cur = Some st' ->
  Forall (dwell_ok p) (visits st').
Proof.
  intros Hvs H.
  apply loop_body_attempt in H as [[-> _]|(s & e & n & m & H & _)]; auto.
  eapply _append_visit_dwell; eauto.
Qed.

Lemma run_loop_dwell (rest : list TrackPoint) (st st' : Locals) :
  Forall (dwell_ok p) (visits st) ->
  run_loop g p rest st = Some st' ->
  Forall (dwell_ok p) (visits st').
Proof.
  revert st. induction rest as [|cur rest IH]; simpl; intros st Hvs H.
  - now injection H as <-.
  - apply bind_Some in H as (st1 & H1 & H).
    eapply IH; [|exact H]. eapply loop_body_dwell; eauto.
Qed.

Lemma initial_locals_visits (p0 : TrackPoint) :
  visits (initial_locals g p0) = [].
Proof. unfold initial_locals. now destruct (inside g p0). Qed.

Lemma find_visits_dwell (pts : list TrackPoint) (vs : list Visit) :
  find_visits pts g p = Some vs -> Forall (dwell_ok p) vs.
Proof.
  unfold find_visits. destruct (sorted geo_time_ms pts) as [|p0 rest].
  - intros [= <-]. constructor.
  - intro H. apply bind_Some in H as (st & Hrun & H).
    apply run_loop_dwell in Hrun;
      [|rewrite initial_locals_visits; constructor].
    unfold close_at_end in H. destruct (in_visit st).
    + eapply _append_visit_dwell; eauto.
    + now injection H as <-.
Qed.

End Dwell.

(** C1. Every visit in the list returned by [find_visits] has
    [start_ms < end_ms] and lasts at least [min_dwell_seconds]; a closing
    candidate with [end <= start] or with a duration below the minimum dwell
    is never appended to the list. *)
Theorem find_visits_min_dwell (pts : list TrackPoint) (g : GeofenceCircle)
    (p : VisitParams) (vs : list Visit) :
  find_visits pts g p = Some vs ->
  Forall (fun v =>
            start_ms v < end_ms v /\
            (min_dwell_seconds p <= div1000 (end_ms v - start_ms v))%Q) vs /\
  (forall acc id s e n m,
      e <= s \/ (div1000 (e - s) < min_dwell_seconds p)%Q ->
      _append_visit acc id s e n m (tz_name p) (min_dwell_seconds p)
      = Some acc).
Proof.
  intro H. split.
  - exact (find_visits_dwell g p pts vs H).
  - intros. now apply _append_visit_rejects.
Qed.

(** * Sequence numbers *)

Lemma StronglySorted_snoc {A : Type} (R : A -> A -> Prop) (l : list A)
    (x : A) :
  StronglySorted R l -> Forall (fun a => R a x) l ->
  StronglySorted R (l ++ [x]).
Proof.
  induction 1 as [|a l Hs IH Ha]; simpl; intro Hx.
  - repeat constructor.
  - inversion Hx as [|? ? Hax Hlx]; subst. constructor; [now apply IH|].
    apply Forall_app. split; [exact Ha | now constructor].
Qed.

Lemma ids_inv_append (vs vs' : list Visit) (id s e n : Z) (m tz : string)
    (md : float) :
  StronglySorted id_lt vs -> Forall (fun v => visit_id v < id) vs ->
  _append_visit vs id s e n m tz md = Some vs' ->
  StronglySorted id_lt vs' /\ Forall (fun v => visit_id v < id + 1) vs'.
Proof.
  intros Hs Hlt H.
  assert (Hlt' : Forall (fun v => visit_id v < id + 1) vs)
    by (eapply Forall_impl; [|exact Hlt]; simpl; intros; lia).
  apply _append_visit_cases in H as [->|(_ & _ & sd & ed & ->)]; auto.
  split.
  - apply StronglySorted_snoc; assumption.
  - apply Forall_app. split; [assumption|]. repeat constructor. simpl. lia.
Qed.

Lemma loop_body_ids (g : GeofenceCircle) (p : VisitParams) (st st' : Locals)
    (cur : TrackPoint) :
  ids_inv st -> loop_body g p st cur = Some st' -> ids_inv st'.
Proof.
  intros [Hs Hlt] H. unfold ids_inv.
  apply loop_body_attempt in H as [[-> ->]|(s & e & n & m & H & ->)]; auto.
  eapply ids_inv_append; eauto.
Qed.

Lemma run_loop_ids (g : GeofenceCircle) (p : VisitParams)
    (rest : list TrackPoint) (st st' : Locals) :
  ids_inv st -> run_loop g p rest st = Some st' -> ids_inv st'.
Proof.
  revert st. induction rest as [|cur rest IH]; simpl; intros st Hinv H.
  - now injection H as <-.
  - apply bind_Some in H as (st1 & H1 & H).
    eapply IH; [|exact H]. eapply loop_body_ids; eauto.
Qed.

(** An iteration that makes a closing attempt calls [_append_visit] on the
    candidate under the current counter and then advances the counter, whatever
    the filter decided; an iteration that makes none leaves both alone. *)
Lemma loop_body_closing (g : GeofenceCircle) (p : VisitParams)
    (st st' : Locals) (cur : TrackPoint) :
  loop_body g p st cur = Some st' ->
  match closing_attempt g p st cur with
  | None => visits st' = visits st /\ next_visit_id st' = next_visit_id st
  | Some (s, e, n, m) =>
      _append_visit (visits st) (next_visit_id st) s e n m
        (tz_name p) (min_dwell_seconds p) = Some (visits st') /\
      next_visit_id st' = next_visit_id st + 1
  end.
Proof.
  unfold loop_body, closing_attempt. cbv zeta.
  destruct (negb (in_visit st)).
  - destruct (negb (prev_inside st) && inside g cur);
      [|destruct (inside g cur)]; intros [= <-]; split; reflexivity.
  - destruct (inside g cur).
    + destruct (_ && _).
      * intro H. apply bind_Some in H as (vs & Hvs & [= <-]).
        split; [exact Hvs | reflexivity].
      * intros [= <-]. split; reflexivity.
    + destruct (Qle_bool _ _).
      * intro H. apply bind_Some in H as (vs & Hvs & [= <-]).
        split; [exact Hvs | reflexivity].
      * intros [= <-]. split; reflexivity.
Qed.

(** A closing attempt on a candidate that the filter rejects: the iteration
    goes through, the list is as before and the counter is one higher. *)
Lemma loop_body_rejected_attempt (g : GeofenceCircle) (p : VisitParams)
    (st : Locals) (cur : TrackPoint) (s e n : Z) (m : string) :
  closing_attempt g p st cur = Some (s, e, n, m) ->
  e <= s \/ (div1000 (e - s) < min_dwell_seconds p)%Q ->
  exists st',
    loop_body g p st cur = Some st' /\
    visits st' = visits st /\
    next_visit_id st' = next_visit_id st + 1.
Proof.
  unfold loop_body, closing_attempt. cbv zeta.
  destruct (negb (in_visit st)); [discriminate|].
  destruct (inside g cur).
  - destruct (_ && _); [|discriminate].
    intros [= <- <- <- <-] Hrej.
    rewrite _append_visit_rejects by exact Hrej.
    eexists. split; [reflexivity|]. split; reflexivity.
  - destruct (Qle_bool _ _); [|discriminate].
    intros [= <- <- <- <-] Hrej.
    rewrite _append_visit_rejects by exact Hrej.
    eexists. split; [reflexivity|]. split; reflexivity.
Qed.

Lemma run_loop_app (g : GeofenceCircle) (p : VisitParams)
    (l1 l2 : list TrackPoint) (st : Locals) :
  run_loop g p (l1 ++ l2) st
  = (st1 <- run_loop g p l1 st ;; run_loop g p l2 st1).
Proof.
  revert st. induction l1 as [|cur l1 IH]; intro st; simpl; [reflexivity|].
  destruct (loop_body g p st cur) as [st1|]; simpl; [apply IH | reflexivity].
Qed.

(** Once the counter has passed [k] with no visit numbered [k] in the list,
    no later step emits a visit numbered [k]. *)
Lemma loop_body_passed (g : GeofenceCircle) (p : VisitParams) (k : Z)
    (st st' : Locals) (cur : TrackPoint) :
  Forall (fun v => visit_id v <> k) (visits st) /\ k < next_visit_id st ->
  loop_body g p st cur = Some st' ->
  Forall (fun v => visit_id v <> k) (visits st') /\ k < next_visit_id st'.
Proof.
  intros [Hvs Hk] H.
  apply loop_body_attempt in H as [[-> ->]|(s & e & n & m & H & ->)]; auto.
  split; [|lia].
  eapply _append_visit_Forall; [|exact Hvs|exact H].
  intros sd ed _ _. simpl. lia.
Qed.

Lemma run_loop_passed (g : GeofenceCircle) (p : VisitParams) (k : Z)
    (rest : list TrackPoint) (st st' : Locals) :
  Forall (fun v => visit_id v <> k) (visits st) /\ k < next_visit_id st ->
  run_loop g p rest st = Some st' ->
  Forall (fun v => visit_id v <> k) (visits st') /\ k < next_visit_id st'.
Proof.
  revert st. induction rest as [|cur rest IH]; simpl; intros st Hinv H.
  - now injection H as <-.
  - apply bind_Some in H as (st1 & H1 & H).
    eapply IH; [|exact H]. eapply loop_body_passed; eauto.
Qed.

(** C6. Every closing attempt consumes one sequence number.  An iteration
    that makes a closing attempt calls [_append_visit] on the candidate under
    the current counter and then advances the counter by one, whether the
    candidate is accepted or rejected; an iteration that makes none leaves the
    list and the counter as they are.  In particular, on a rejected candidate
    the iteration goes through with the list unchanged and the counter one
    higher.  Hence the [visit_id]s of the visits returned by [find_visits] are
    strictly increasing, and the number of a candidate rejected in the loop
    is borne by no returned visit: it is a gap in the emitted numbering. *)
Theorem visit_ids_strictly_increasing (g : GeofenceCircle)
    (p : VisitParams) :
  (forall st cur st',
      loop_body g p st cur = Some st' ->
      match closing_attempt g p st cur with
      | None =>
          visits st' = visits st /\ next_visit_id st' = next_visit_id st
      | Some (s, e, n, m) =>
          _append_visit (visits st) (next_visit_id st) s e n m
            (tz_name p) (min_dwell_seconds p) = Some (visits st') /\
          next_visit_id st' = next_visit_id st + 1
      end) /\
  (forall st cur s e n m,
      closing_attempt g p st cur = Some (s, e, n, m) ->
      e <= s \/ (div1000 (e - s) < min_dwell_seconds p)%Q ->
      exists st',
        loop_body g p st cur = Some st' /\
        visits st' = visits st /\
        next_visit_id st' = next_visit_id st + 1) /\
  (forall pts vs,
      find_visits pts g p = Some vs ->
      StronglySorted (fun v w => visit_id v < visit_id w) vs) /\
  (forall pts p0 pre cur post st s e n m vs,
      sorted geo_time_ms pts = p0 :: pre ++ cur :: post ->
      run_loop g p pre (initial_locals g p0) = Some st ->
      closing_attempt g p st cur = Some (s, e, n, m) ->
      e <= s \/ (div1000 (e - s) < min_dwell_seconds p)%Q ->
      find_visits pts g p = Some vs ->
      Forall (fun v => visit_id v <> next_visit_id st) vs).
Proof.
  split; [|split; [|split]].
  - intros st cur st'. apply loop_body_closing.
  - intros st cur s e n m. apply loop_body_rejected_attempt.
  - intros pts vs. unfold find_visits.
    destruct (sorted geo_time_ms pts) as [|p0 rest].
    + intros [= <-]. constructor.
    + intro H. apply bind_Some in H as (st & Hrun & H).
      apply run_loop_ids in Hrun as [Hs Hlt].
      * unfold close_at_end in H. destruct (in_visit st).
        -- eapply ids_inv_append in H as [H _]; eauto.
        -- now injection H as <-.
      * unfold ids_inv. rewrite initial_locals_visits.
        split; constructor.
  - intros pts p0 pre cur post st s e n m vs Hsorted Hpre Hatt Hrej.
    unfold find_visits. rewrite Hsorted. intro H.
    apply bind_Some in H as (stf & Hrun & H).
    rewrite run_loop_app, Hpre in Hrun. cbn [bind run_loop] in Hrun.
    apply bind_Some in Hrun as (st1 & Hstep & Hpost).
    assert (Hinv : ids_inv st).
    { eapply run_loop_ids; [|exact Hpre].
      unfold ids_inv. rewrite initial_locals_visits. split; constructor. }
    destruct Hinv as [_ Hlt].
    apply loop_body_closing in Hstep. rewrite Hatt in Hstep.
    destruct Hstep as [Happ Hnext].
    rewrite _append_visit_rejects in Happ by exact Hrej.
    injection Happ as Happ.
    assert (H1 : Forall (fun v => visit_id v <> next_visit_id st)
                   (visits st1) /\ next_visit_id st < next_visit_id st1).
    { split; [|lia]. rewrite <- Happ.
      eapply Forall_impl; [|exact Hlt]. simpl. intros; lia. }
    apply (run_loop_passed g p _ _ _ _ H1) in Hpost.
    destruct Hpost as [Hvs Hk].
    unfold close_at_end in H. destruct (in_visit stf).
    + eapply _append_visit_Forall; [|exact Hvs|exact H].
      intros sd ed _ _. simpl. lia.
    + now injection H as <-.
Qed.

(** * Chronological order *)

Lemma Forall_le_trans (f : Visit -> Z) (a b : Z) (vs : list Visit) :
  a <= b -> Forall (fun v => f v <= a) vs -> Forall (fun v => f v <= b) vs.
Proof.
  intros Hab H. eapply Forall_impl; [|exact H]. simpl. intros; lia.
Qed.

Lemma chrono_append (vs vs' : list Visit) (id s e n : Z) (m tz : string)
    (md : float) (bound : Z) :
  StronglySorted before vs ->
  Forall (fun v => end_ms v <= s) vs ->
  Forall (fun v => end_ms v <= bound) vs ->
  e <= bound ->
  _append_visit vs id s e n m tz md = Some vs' ->
  StronglySorted before vs' /\ Forall (fun v => end_ms v <= bound) vs'.
Proof.
  intros Hs Hstart Hb He H.
  apply _append_visit_cases in H as [->|(_ & _ & sd & ed & ->)]; auto.
  split.
  - apply StronglySorted_snoc; assumption.
  - apply Forall_app. split; [assumption|]. repeat constructor. exact He.
Qed.

Lemma loop_body_chrono (g : GeofenceCircle) (p : VisitParams)
    (st st' : Locals) (cur : TrackPoint) :
  geo_time_ms (prev st) <= geo_time_ms cur ->
  chrono_inv st -> loop_body g p st cur = Some st' -> chrono_inv st'.
Proof.
  intros Hle (Hs & Hb & Hin) H.
  pose proof (Forall_le_trans end_ms _ _ _ Hle Hb) as Hb'.
  unfold chrono_inv.
  break_loop H;
    try (injection H as <-; simpl).
  - (* entry transition *)
    repeat split; auto; try lia; try discriminate.
    eapply Forall_le_trans; [|exact Hb]. apply _boundary_ms_lower.
  - (* inside with no transition *)
    repeat split; auto; try lia; discriminate.
  - (* still outside *)
    apply negb_true_iff in Heqb. rewrite Heqb.
    repeat split; auto; discriminate.
  - (* split on a gap *)
    apply negb_false_iff in Heqb. destruct (Hin Heqb) as (He & Hl & Ho & Hst).
    apply bind_Some in H as (vs & Hvs & [= <-]); simpl.
    eapply chrono_append with (bound := geo_time_ms cur) in Hvs
      as [Hs' Hb'']; auto; try lia.
    repeat split; auto; try lia; discriminate.
  - (* the visit goes on *)
    apply negb_false_iff in Heqb. destruct (Hin Heqb) as (He & Hl & Ho & Hst).
    repeat split; auto; try lia; discriminate.
  - (* exit confirmed, after a pending exit *)
    apply negb_false_iff in Heqb. destruct (Hin Heqb) as (He & Hl & Ho & Hst).
    apply bind_Some in H as (vs & Hvs & [= <-]); simpl.
    pose proof (_boundary_ms_upper (last_inside_ms st) z
                  (transition_gap_seconds p) "prev") as Hu.
    specialize (Ho z eq_refl).
    eapply chrono_append with (bound := geo_time_ms cur) in Hvs
      as [Hs' Hb'']; auto; try lia.
    repeat split; auto; discriminate.
  - (* exit confirmed at once *)
    apply negb_false_iff in Heqb. destruct (Hin Heqb) as (He & Hl & Ho & Hst).
    apply bind_Some in H as (vs & Hvs & [= <-]); simpl.
    pose proof (_boundary_ms_upper (last_inside_ms st) (geo_time_ms cur)
                  (transition_gap_seconds p) "prev") as Hu.
    eapply chrono_append with (bound := geo_time_ms cur) in Hvs
      as [Hs' Hb'']; auto; try lia.
    repeat split; auto; discriminate.
  - (* exit pending, already started *)
    apply negb_false_iff in Heqb. destruct (Hin Heqb) as (He & Hl & Ho & Hst).
    specialize (Ho z eq_refl).
    repeat split; auto; try lia. intros o [= <-]. lia.
  - (* exit pending from now *)
    apply negb_false_iff in Heqb. destruct (Hin Heqb) as (He & Hl & Ho & Hst).
    repeat split; auto; try lia. intros o [= <-]. lia.
Qed.

Lemma run_loop_chrono (g : GeofenceCircle) (p : VisitParams)
    (rest : list TrackPoint) (st st' : Locals) :
  StronglySorted (key_le geo_time_ms) (prev st :: rest) ->
  chrono_inv st -> run_loop g p rest st = Some st' -> chrono_inv st'.
Proof.
  revert st. induction rest as [|cur rest IH]; simpl; intros st Hsorted Hinv H.
  - now injection H as <-.
  - apply bind_Some in H as (st1 & H1 & H).
    inversion Hsorted as [|? ? Hrest Hprev]; subst.
    inversion Hprev as [|? ? Hle _]; subst.
    eapply IH; [| |exact H].
    + rewrite (loop_body_prev _ _ _ _ _ H1). exact Hrest.
    + eapply loop_body_chrono; eauto.
Qed.

Lemma initial_locals_chrono (g : GeofenceCircle) (p0 : TrackPoint) :
  chrono_inv (initial_locals g p0) /\ prev (initial_locals g p0) = p0.
Proof.
  unfold initial_locals, chrono_inv.
  destruct (inside g p0); simpl; repeat split;
    try constructor; try lia; discriminate.
Qed.

Lemma StronglySorted_consecutive {A : Type} (R : A -> A -> Prop)
    (l : list A) :
  StronglySorted R l ->
  forall i a b, nth_error l i = Some a -> nth_error l (S i) = Some b -> R a b.
Proof.
  induction 1 as [|x l Hs IH Hx]; intros i a b Ha Hb.
  - destruct i; discriminate.
  - destruct i as [|i]; simpl in Ha, Hb.
    + injection Ha as <-. destruct l as [|y l]; [discriminate|].
      injection Hb as <-. now inversion Hx.
    + eapply IH; eauto.
Qed.

(** C9. The visits returned by [find_visits] are in chronological order and
    do not overlap: each visit ends no later than any later visit starts, in
    particular for two consecutive visits of the list. *)
Theorem find_visits_chronological (pts : list TrackPoint)
    (g : GeofenceCircle) (p : VisitParams) (vs : list Visit) :
  find_visits pts g p = Some vs ->
  StronglySorted before vs /\
  (forall i v w,
      nth_error vs i = Some v -> nth_error vs (S i) = Some w ->
      end_ms v <= start_ms w).
Proof.
  intro H.
  assert (Hs : StronglySorted before vs).
  { unfold find_visits in H.
    pose proof (sorted_sorted geo_time_ms pts) as Hsorted.
    destruct (sorted geo_time_ms pts) as [|p0 rest].
    - injection H as <-. constructor.
    - apply bind_Some in H as (st & Hrun & H).
      destruct (initial_locals_chrono g p0) as [Hinit Hprev].
      apply run_loop_chrono in Hrun; [|now rewrite Hprev|exact Hinit].
      destruct Hrun as (Hs & Hb & Hin).
      unfold close_at_end in H. destruct (in_visit st).
      + destruct (Hin eq_refl) as (_ & _ & _ & Hst).
        apply _append_visit_cases in H as [->|(_ & _ & sd & ed & ->)]; auto.
        apply StronglySorted_snoc; assumption.
      + now injection H as <-. }
  split; [exact Hs|].
  intros i v w Hv Hw.
  exact (StronglySorted_consecutive before vs Hs i v w Hv Hw).
Qed.

(** * Order of the input *)

(** C8. When the sample timestamps are pairwise distinct, [find_visits]
    returns on any permutation of the samples exactly what it returns on the
    time-sorted sequence. *)
Theorem find_visits_order_insensitive (pts srt : list TrackPoint)
    (g : GeofenceCircle) (p : VisitParams) :
  NoDup (map geo_time_ms srt) ->
  StronglySorted (key_le geo_time_ms) srt ->
  Permutation srt pts ->
  find_visits pts g p = find_visits srt g p.
Proof.
  intros Hnd Hsorted Hperm. unfold find_visits.
  now rewrite (sorted_permutation_invariant geo_time_ms srt pts Hnd Hperm).
Qed.

(** * Exit confirmation *)

Lemma div1000_diag_lt (t : Z) (x : float) :
  (0 < x)%Q -> Qle_bool x (div1000 (t - t)) = false.
Proof.
  intro H. apply Qle_bool_false.
  eapply Qle_lt_trans; [|exact H]. apply div1000_nonpos. lia.
Qed.

(** C2 (amended: for a positive [exit_grace_seconds]).  Let the current
    sample classify outside.  In state INSIDE the engine only records
    [outside_started = cur.time] and moves to INSIDE_PENDING_EXIT; nothing is
    closed.  In state INSIDE_PENDING_EXIT with a pending exit started at [o],
    the visit is closed exactly when [(cur.time - o) / 1000 >= exit_grace]:
    then the exit boundary is [_boundary_ms last_inside o transition_gap
    "prev"], the candidate's end is the maximum of the running visit end and
    that boundary, it is handed to the filter under the tag "exit_grace", and
    the engine is OUTSIDE; otherwise the engine stays in INSIDE_PENDING_EXIT
    with the same [o]. *)
Theorem exit_grace_transition (g : GeofenceCircle) (p : VisitParams)
    (st : Locals) (cur : TrackPoint) :
  (0 < exit_grace_seconds p)%Q ->
  inside g cur = false ->
  (engine_state st = INSIDE ->
   loop_body g p st cur
   = Some (mkLocals (visits st) true (visit_start_ms st) (visit_end_ms st)
             (last_inside_ms st) (Some (geo_time_ms cur)) (visit_points st)
             (next_visit_id st) (cur_method st) cur false)) /\
  (forall o,
      engine_state st = INSIDE_PENDING_EXIT ->
      outside_started_ms st = Some o ->
      ((exit_grace_seconds p <= div1000 (geo_time_ms cur - o))%Q ->
       loop_body g p st cur
       = (let exit_ms := _boundary_ms (last_inside_ms st) o
                           (transition_gap_seconds p) "prev" in
          let visit_end := Z.max (visit_end_ms st) exit_ms in
          vs <- _append_visit (visits st) (next_visit_id st)
                  (visit_start_ms st) visit_end (visit_points st)
                  "exit_grace" (tz_name p) (min_dwell_seconds p) ;;
          Some (mkLocals vs false (visit_start_ms st) visit_end
                  (last_inside_ms st) None 0 (next_visit_id st + 1)
                  (cur_method st) cur false))) /\
      ((div1000 (geo_time_ms cur - o) < exit_grace_seconds p)%Q ->
       loop_body g p st cur
       = Some (mkLocals (visits st) true (visit_start_ms st)
                 (visit_end_ms st) (last_inside_ms st) (Some o)
                 (visit_points st) (next_visit_id st) (cur_method st)
                 cur false))).
Proof.
  intros Hgrace Hout. split; [|intros o Hstate Ho; split].
  - intro Hstate. unfold engine_state in Hstate.
    destruct (in_visit st) eqn:Hin; [|discriminate].
    destruct (outside_started_ms st) eqn:Ho; [discriminate|].
    unfold loop_body. rewrite Hin, Hout, Ho. simpl.
    rewrite Z.geb_leb, Z.leb_refl.
    now rewrite (div1000_diag_lt _ _ Hgrace).
  - intro Hle. unfold engine_state in Hstate.
    destruct (in_visit st) eqn:Hin; [|discriminate].
    unfold loop_body. rewrite Hin, Hout, Ho. simpl.
    assert (Hpos : (0 < div1000 (geo_time_ms cur - o))%Q)
      by (eapply Qlt_le_trans; eauto).
    apply (proj1 (div1000_pos _)) in Hpos.
    assert (Hge : (geo_time_ms cur >=? o) = true)
      by (rewrite Z.geb_leb; apply Z.leb_le; lia).
    rewrite Hge. apply Qle_bool_iff in Hle. now rewrite Hle.
  - intro Hlt. unfold engine_state in Hstate.
    destruct (in_visit st) eqn:Hin; [|discriminate].
    unfold loop_body. rewrite Hin, Hout, Ho. simpl.
    destruct (geo_time_ms cur >=? o).
    + apply Qle_bool_false in Hlt. now rewrite Hlt.
    + apply Qle_bool_false in Hgrace. now rewrite Hgrace.
Qed.

(** * Splitting on a gap between inside samples *)

(** One iteration on an inside sample that follows the last inside sample,
    itself at a positive time, by more than [max_gap_seconds]: the running
    visit is handed to the filter with [end = last_inside] under the tag
    "split_on_inside_gap", and a new visit is opened at the current sample. *)
Lemma loop_body_split_on_gap (g : GeofenceCircle) (p : VisitParams)
    (st : Locals) (cur : TrackPoint) :
  in_visit st = true ->
  inside g cur = true ->
  0 < last_inside_ms st ->
  (max_gap_seconds p < div1000 (geo_time_ms cur - last_inside_ms st))%Q ->
  loop_body g p st cur
  = (vs <- _append_visit (visits st) (next_visit_id st) (visit_start_ms st)
             (last_inside_ms st) (visit_points st) "split_on_inside_gap"
             (tz_name p) (min_dwell_seconds p) ;;
     Some (mkLocals vs true (geo_time_ms cur) (geo_time_ms cur)
             (geo_time_ms cur) None 1 (next_visit_id st + 1)
             "restart_after_gap" cur true)).
Proof.
  intros Hin Hcur Hpos Hgap. unfold loop_body. rewrite Hin, Hcur. simpl.
  apply Z.gtb_lt in Hpos. apply Qlt_bool_true in Hgap.
  now rewrite Hpos, Hgap.
Qed.

(** One iteration on an inside sample within [max_gap_seconds] of the last
    inside sample: the running visit is extended. *)
Lemma loop_body_extend (g : GeofenceCircle) (p : VisitParams)
    (st : Locals) (cur : TrackPoint) :
  in_visit st = true ->
  inside g cur = true ->
  (div1000 (geo_time_ms cur - last_inside_ms st) <= max_gap_seconds p)%Q ->
  loop_body g p st cur
  = Some (mkLocals (visits st) true (visit_start_ms st) (geo_time_ms cur)
            (geo_time_ms cur) None (visit_points st + 1) (next_visit_id st)
            (cur_method st) cur true).
Proof.
  intros Hin Hcur Hgap. unfold loop_body. rewrite Hin, Hcur. simpl.
  apply Qlt_bool_false in Hgap. rewrite Hgap.
  now rewrite andb_false_r.
Qed.

Lemma _append_visit_accepts (vs : list Visit) (id s e n : Z)
    (m tz : string) (md : float) (sd ed : datetime) :
  s < e -> (md <= div1000 (e - s))%Q ->
  dt_from_epoch_ms s tz = Some sd -> dt_from_epoch_ms e tz = Some ed ->
  _append_visit vs id s e n m tz md
  = Some (vs ++ [mkVisit id sd ed s e n m]).
Proof.
  intros Hlt Hmd Hs He. unfold _append_visit.
  apply Z.leb_gt in Hlt. apply Qlt_bool_false in Hmd.
  now rewrite Hlt, Hmd, Hs, He.
Qed.

(** Two inside samples on either side of a gap give no visit at all: each
    candidate counts a single sample, so its end equals its start and the
    filter rejects it. *)
Lemma two_inside_samples_no_visit (g : GeofenceCircle) (p : VisitParams)
    (p0 p1 : TrackPoint) :
  inside g p0 = true -> inside g p1 = true ->
  0 < geo_time_ms p0 ->
  (max_gap_seconds p < div1000 (geo_time_ms p1 - geo_time_ms p0))%Q ->
  geo_time_ms p0 < geo_time_ms p1 ->
  find_visits [p0; p1] g p = Some [].
Proof.
  intros I0 I1 Hpos G01 H01. unfold find_visits.
  rewrite sorted_of_sorted
    by (repeat (constructor; [|repeat constructor; unfold key_le; lia]);
        constructor).
  unfold initial_locals. rewrite I0. cbn [run_loop].
  rewrite loop_body_split_on_gap
    by (simpl; first [reflexivity | assumption]).
  cbn [visits visit_start_ms last_inside_ms visit_points next_visit_id].
  rewrite _append_visit_rejects by (left; lia).
  cbn [bind]. unfold close_at_end.
  cbn [in_visit last_inside_ms visits visit_start_ms visit_points
       next_visit_id cur_method].
  apply _append_visit_rejects. left.
  cbn [prev]. destruct (geo_time_ms p1 >? 0); lia.
Qed.

(** C4 (amended).  Take four inside samples at times [a < t0 < t1 < b], with
    [t0] positive, where [t0] and [t1] are more than [max_gap_seconds] apart
    while the outer gaps are within it and reach the minimum dwell (for
    instance 0 s, 60 s, 100 000 s and 100 060 s with [max_gap = 3600]).  With
    no outside sample in between, the engine produces two visits: the first
    from [a] to [t0], the last inside sample before the gap (tag
    "split_on_inside_gap", number 1), and the second from [t1], the first
    sample after the gap, to [b] (tag "restart_after_gap", number 2). *)
Theorem gap_between_inside_samples_splits (g : GeofenceCircle)
    (p : VisitParams) (pa p0 p1 pb : TrackPoint) (da d0 d1 db : datetime) :
  inside g pa = true -> inside g p0 = true ->
  inside g p1 = true -> inside g pb = true ->
  0 < geo_time_ms p0 ->
  geo_time_ms pa < geo_time_ms p0 ->
  geo_time_ms p0 < geo_time_ms p1 ->
  geo_time_ms p1 < geo_time_ms pb ->
  (div1000 (geo_time_ms p0 - geo_time_ms pa) <= max_gap_seconds p)%Q ->
  (max_gap_seconds p < div1000 (geo_time_ms p1 - geo_time_ms p0))%Q ->
  (div1000 (geo_time_ms pb - geo_time_ms p1) <= max_gap_seconds p)%Q ->
  (min_dwell_seconds p <= div1000 (geo_time_ms p0 - geo_time_ms pa))%Q ->
  (min_dwell_seconds p <= div1000 (geo_time_ms pb - geo_time_ms p1))%Q ->
  dt_from_epoch_ms (geo_time_ms pa) (tz_name p) = Some da ->
  dt_from_epoch_ms (geo_time_ms p0) (tz_name p) = Some d0 ->
  dt_from_epoch_ms (geo_time_ms p1) (tz_name p) = Some d1 ->
  dt_from_epoch_ms (geo_time_ms pb) (tz_name p) = Some db ->
  find_visits [pa; p0; p1; pb] g p
  = Some [mkVisit 1 da d0 (geo_time_ms pa) (geo_time_ms p0) 2
            "split_on_inside_gap";
          mkVisit 2 d1 db (geo_time_ms p1) (geo_time_ms pb) 2
            "restart_after_gap"].
Proof.
  intros Ia I0 I1 Ib Hpos Ha0 H01 H1b Ga G01 Gb Da Db Ta T0 T1 Tb.
  unfold find_visits.
  rewrite sorted_of_sorted
    by (repeat (constructor; [|repeat constructor; unfold key_le; lia]);
        constructor).
  unfold initial_locals. rewrite Ia.
  cbn [run_loop].
  rewrite loop_body_extend by (simpl; first [reflexivity | assumption]).
  cbn [bind visits visit_start_ms visit_points next_visit_id cur_method].
  rewrite loop_body_split_on_gap
    by (simpl; first [reflexivity | assumption | lia]).
  cbn [visits visit_start_ms last_inside_ms visit_points next_visit_id].
  rewrite (_append_visit_accepts _ _ _ _ _ _ _ _ da d0) by assumption.
  cbn [bind app].
  rewrite loop_body_extend by (simpl; first [reflexivity | assumption]).
  cbn [bind]. unfold close_at_end.
  cbn [in_visit last_inside_ms visits visit_start_ms visit_points
       next_visit_id cur_method].
  replace (geo_time_ms pb >? 0) with true by (symmetry; apply Z.gtb_lt; lia).
  rewrite (_append_visit_accepts _ _ _ _ _ _ _ _ d1 db)
    by (assumption || lia).
  reflexivity.
Qed.

(** * End of stream *)

(** With the last inside sample at a positive time, the open visit is closed
    at that time, under the tag it has carried since it was opened. *)
Lemma close_at_end_last_inside (p : VisitParams) (st : Locals) :
  in_visit st = true ->
  0 < last_inside_ms st ->
  close_at_end p st
  = _append_visit (visits st) (next_visit_id st) (visit_start_ms st)
      (last_inside_ms st) (visit_points st) (cur_method st)
      (tz_name p) (min_dwell_seconds p).
Proof.
  intros Hin Hpos. unfold close_at_end. rewrite Hin.
  apply Z.gtb_lt in Hpos. now rewrite Hpos.
Qed.

(** Otherwise the time of the last sample read is used. *)
Lemma close_at_end_fallback (p : VisitParams) (st : Locals) :
  in_visit st = true ->
  last_inside_ms st <= 0 ->
  close_at_end p st
  = _append_visit (visits st) (next_visit_id st) (visit_start_ms st)
      (geo_time_ms (prev st)) (visit_points st) (cur_method st)
      (tz_name p) (min_dwell_seconds p).
Proof.
  intros Hin Hpos. unfold close_at_end. rewrite Hin.
  destruct (last_inside_ms st >? 0) eqn:E; [|reflexivity].
  apply Z.gtb_lt in E. lia.
Qed.

(** * Further properties of the engine *)

(** ** Generic preservation along the loop *)

Lemma run_loop_invariant_on (g : GeofenceCircle) (p : VisitParams)
    (Q : TrackPoint -> Prop) (I : Locals -> Prop) :
  (forall st cur st',
      Q cur -> I st -> loop_body g p st cur = Some st' -> I st') ->
  forall rest st st',
    Forall Q rest -> I st -> run_loop g p rest st = Some st' -> I st'.
Proof.
  intros Hstep rest. induction rest as [|cur rest IH]; simpl;
    intros st st' HQ HI H.
  - now injection H as <-.
  - apply bind_Some in H as (st1 & H1 & H).
    inversion HQ as [|? ? Hcur Hrest]; subst.
    eapply IH; [exact Hrest| |exact H]. eapply Hstep; eauto.
Qed.

Lemma run_loop_invariant (g : GeofenceCircle) (p : VisitParams)
    (I : Locals -> Prop) :
  (forall st cur st', I st -> loop_body g p st cur = Some st' -> I st') ->
  forall rest st st',
    I st -> run_loop g p rest st = Some st' -> I st'.
Proof.
  intros Hstep rest st st' HI H.
  refine (run_loop_invariant_on g p (fun _ => True) I _ rest st st' _ HI H).
  - intros st0 cur st1 _. apply Hstep.
  - apply Forall_forall. auto.
Qed.

(** [_append_visit], with the conversions it made. *)
Lemma _append_visit_inv (vs vs' : list Visit) (id s e n : Z)
    (m tz : string) (md : float) :
  _append_visit vs id s e n m tz md = Some vs' ->
  vs' = vs \/
  (s < e /\ (md <= div1000 (e - s))%Q /\
   exists sd ed,
     dt_from_epoch_ms s tz = Some sd /\ dt_from_epoch_ms e tz = Some ed /\
     vs' = vs ++ [mkVisit id sd ed s e n m]).
Proof.
  unfold _append_visit.
  destruct (e <=? s) eqn:E1; [intros [= <-]; now left|].
  destruct (Qlt_bool _ md) eqn:E2; [intros [= <-]; now left|].
  intro H. apply bind_Some in H as (sd & Hsd & H).
  apply bind_Some in H as (ed & Hed & [= <-]).
  right. apply Z.leb_gt in E1. apply Qlt_bool_false in E2.
  repeat split; auto. exists sd, ed. auto.
Qed.

(** ** Fewer than two samples *)

(** X1. An empty input gives the empty list at once, with nothing
    classified or converted.  A single sample that classifies inside gives the
    empty list too, whatever the zone name: the one candidate ends where it
    starts, and the filter drops it before any timestamp is converted. *)
Theorem find_visits_fewer_than_two (g : GeofenceCircle) (p : VisitParams) :
  find_visits [] g p = Some [] /\
  (forall pt, inside g pt = true -> find_visits [pt] g p = Some []).
Proof.
  split; [reflexivity|].
  intros pt Hin. unfold find_visits. simpl.
  unfold initial_locals, close_at_end. rewrite Hin. simpl.
  apply _append_visit_rejects. left.
  destruct (geo_time_ms pt >? 0); lia.
Qed.

(** ** No inside sample *)

Lemma run_loop_all_outside (g : GeofenceCircle) (p : VisitParams)
    (rest : list TrackPoint) (st : Locals) :
  Forall (fun pt => inside g pt = false) rest ->
  in_visit st = false ->
  exists st', run_loop g p rest st = Some st' /\
              visits st' = visits st /\ in_visit st' = false.
Proof.
  revert st. induction rest as [|cur rest IH]; simpl; intros st Hout Hin.
  - eauto.
  - inversion Hout as [|? ? Hcur Hrest]; subst.
    unfold loop_body at 1. rewrite Hin, Hcur. simpl.
    rewrite andb_false_r.
    destruct (IH (mkLocals (visits st) false (visit_start_ms st)
                    (visit_end_ms st) (last_inside_ms st)
                    (outside_started_ms st) (visit_points st)
                    (next_visit_id st) (cur_method st) cur false)
                Hrest eq_refl) as (st' & Hrun & Hvs & Hin').
    exists st'. simpl in Hvs. simpl. auto.
Qed.

(** X2. When no sample classifies inside, the result is the empty list. *)
Theorem find_visits_all_outside (pts : list TrackPoint)
    (g : GeofenceCircle) (p : VisitParams) :
  Forall (fun pt => inside g pt = false) pts ->
  find_visits pts g p = Some [].
Proof.
  intro Hout. unfold find_visits.
  assert (Hs : Forall (fun pt => inside g pt = false)
                 (sorted geo_time_ms pts)).
  { eapply Permutation_Forall; [apply Permutation_sym, sorted_perm|].
    exact Hout. }
  destruct (sorted geo_time_ms pts) as [|p0 rest]; [reflexivity|].
  inversion Hs as [|? ? H0 Hrest]; subst.
  destruct (run_loop_all_outside g p rest (initial_locals g p0) Hrest)
    as (st' & Hrun & Hvs & Hin).
  - unfold initial_locals. now rewrite H0.
  - rewrite Hrun. simpl. unfold close_at_end. rewrite Hin, Hvs.
    now rewrite initial_locals_visits.
Qed.

(** ** Visits lie within the recorded time span *)

(** Opening of the case analysis used below: the branch taken by
    [loop_body], with [in_visit] decided first. *)
Ltac step_cases H Hin :=
  unfold loop_body in H; cbv zeta in H;
  match type of H with
  | context [in_visit ?s] => destruct (in_visit s) eqn:Hin
  end;
  cbn [negb] in H;
  repeat match type of H with
         | context [if ?c then _ else _] => destruct c eqn:?
         | context [match outside_started_ms ?s with _ => _ end] =>
             destruct (outside_started_ms s) eqn:?
         end.

Lemma loop_body_starts (g : GeofenceCircle) (p : VisitParams) (lo : Z)
    (st st' : Locals) (cur : TrackPoint) :
  lo <= geo_time_ms cur ->
  (Forall (fun v => lo <= start_ms v) (visits st) /\
   (in_visit st = true -> lo <= visit_start_ms st) /\
   lo <= geo_time_ms (prev st)) ->
  loop_body g p st cur = Some st' ->
  Forall (fun v => lo <= start_ms v) (visits st') /\
  (in_visit st' = true -> lo <= visit_start_ms st') /\
  lo <= geo_time_ms (prev st').
Proof.
  intros Hcur (Hvs & Hopen & Hprev) H.
  step_cases H Hin;
    try (injection H as <-; simpl; repeat split; auto; try discriminate;
         try (intros _;
              pose proof (_boundary_ms_lower (geo_time_ms (prev st))
                            (geo_time_ms cur) (transition_gap_seconds p)
                            "cur");
              lia));
    apply bind_Some in H as (vs & Hvs' & [= <-]); simpl;
    (eapply _append_visit_Forall
       with (P := fun v => lo <= start_ms v) in Hvs';
     [|intros; simpl; auto|exact Hvs]);
    repeat split; auto; discriminate.
Qed.

Lemma find_visits_span (pts : list TrackPoint) (g : GeofenceCircle)
    (p : VisitParams) (vs : list Visit) (lo hi : Z) :
  find_visits pts g p = Some vs ->
  Forall (fun pt => lo <= geo_time_ms pt <= hi) pts ->
  Forall (fun v => lo <= start_ms v /\ end_ms v <= hi) vs.
Proof.
  intros H Hspan. unfold find_visits in H.
  assert (Hs : Forall (fun pt => lo <= geo_time_ms pt <= hi)
                 (sorted geo_time_ms pts)).
  { eapply Permutation_Forall; [apply Permutation_sym, sorted_perm|].
    exact Hspan. }
  pose proof (sorted_sorted geo_time_ms pts) as Hsorted.
  destruct (sorted geo_time_ms pts) as [|p0 rest].
  { injection H as <-. constructor. }
  inversion Hs as [|? ? H0 Hrest]; subst.
  apply bind_Some in H as (st & Hrun & H).
  destruct (initial_locals_chrono g p0) as [Hinit Hprev0].
  (* ends are bounded by the time of the last sample read *)
  pose proof (run_loop_chrono g p rest _ _
                ltac:(rewrite Hprev0; exact Hsorted) Hinit Hrun)
    as (_ & Hends & Hopen).
  (* which is at most [hi] *)
  assert (Hhi : geo_time_ms (prev st) <= hi).
  { refine (run_loop_invariant_on g p
              (fun pt => geo_time_ms pt <= hi)
              (fun s => geo_time_ms (prev s) <= hi) _ rest _ _ _ _ Hrun).
    - intros s cur s' Hc _ Hb. now rewrite (loop_body_prev _ _ _ _ _ Hb).
    - eapply Forall_impl; [|exact Hrest]. simpl. intros; lia.
    - rewrite Hprev0. lia. }
  (* starts are at least [lo] *)
  assert (Hlo : Forall (fun v => lo <= start_ms v) (visits st) /\
                (in_visit st = true -> lo <= visit_start_ms st) /\
                lo <= geo_time_ms (prev st)).
  { refine (run_loop_invariant_on g p
              (fun pt => lo <= geo_time_ms pt)
              (fun s => Forall (fun v => lo <= start_ms v) (visits s) /\
                        (in_visit s = true -> lo <= visit_start_ms s) /\
                        lo <= geo_time_ms (prev s))
              _ rest _ _ _ _ Hrun).
    - intros s cur s' Hc Hi Hb. eapply loop_body_starts; eauto.
    - eapply Forall_impl; [|exact Hrest]. simpl. intros; lia.
    - rewrite Hprev0, initial_locals_visits. repeat split; try lia.
      + constructor.
      + unfold initial_locals. destruct (inside g p0); simpl;
          [intros _; lia | discriminate]. }
  destruct Hlo as (Hstarts & Hstart & _).
  assert (Hboth : Forall (fun v => lo <= start_ms v /\ end_ms v <= hi)
                    (visits st)).
  { rewrite Forall_forall in *. intros v Hv.
    specialize (Hstarts v Hv). specialize (Hends v Hv). simpl in *. lia. }
  unfold close_at_end in H. destruct (in_visit st) eqn:Hin.
  - destruct (Hopen eq_refl) as (_ & Hlast & _ & _).
    eapply _append_visit_Forall in H; [exact H| |exact Hboth].
    intros sd ed _ _. simpl. split; [auto|].
    destruct (last_inside_ms st >? 0); lia.
  - now injection H as <-.
Qed.

Lemma last_cons_In {A : Type} (a : A) (l : list A) (d : A) :
  In (last (a :: l) d) (a :: l).
Proof.
  revert a. induction l as [|b l IH]; intro a; [now left|].
  right. exact (IH b).
Qed.

Lemma StronglySorted_last_max (l : list TrackPoint) (d : TrackPoint) :
  StronglySorted (key_le geo_time_ms) l ->
  Forall (fun pt => geo_time_ms pt <= geo_time_ms (last l d)) l.
Proof.
  induction 1 as [|a l Hs IH Ha]; [constructor|].
  destruct l as [|b l]; [repeat constructor; simpl; lia|].
  change (last (a :: b :: l) d) with (last (b :: l) d).
  constructor; [|exact IH].
  inversion Ha as [|? ? Hab _]; subst. inversion IH as [|? ? Hb _]; subst.
  unfold key_le in Hab. lia.
Qed.

Lemma find_visits_between_samples (pts : list TrackPoint)
    (g : GeofenceCircle) (p : VisitParams) (vs : list Visit) :
  find_visits pts g p = Some vs ->
  Forall (fun v =>
            exists a b, In a pts /\ In b pts /\
                        geo_time_ms a <= start_ms v /\
                        end_ms v <= geo_time_ms b) vs.
Proof.
  intro H.
  pose proof (sorted_sorted geo_time_ms pts) as Hsorted.
  pose proof (sorted_perm geo_time_ms pts) as Hperm.
  destruct (sorted geo_time_ms pts) as [|p0 rest] eqn:Hsrt.
  { unfold find_visits in H. rewrite Hsrt in H. injection H as <-.
    constructor. }
  set (pl := last (p0 :: rest) p0).
  assert (Hspan : Forall (fun pt => geo_time_ms p0 <= geo_time_ms pt
                                    <= geo_time_ms pl) pts).
  { eapply Permutation_Forall; [exact Hperm|].
    pose proof (StronglySorted_last_max _ p0 Hsorted) as Hmax.
    fold pl in Hmax.
    inversion Hsorted as [|? ? _ Hmin]; subst.
    rewrite Forall_forall in *. intros pt [<-|Hpt].
    - split; [lia|]. apply Hmax. now left.
    - split; [exact (Hmin pt Hpt)|]. apply Hmax. now right. }
  pose proof (find_visits_span pts g p vs _ _ H Hspan) as Hvs.
  eapply Forall_impl; [|exact Hvs]. intros v Hv. exists p0, pl.
  split; [eapply Permutation_in; [exact Hperm | now left]|].
  split; [|exact Hv].
  eapply Permutation_in; [exact Hperm|].
  unfold pl. apply last_cons_In.
Qed.

(** X4. Every returned visit lies within the time span of the input: it
    starts no earlier than some sample and ends no later than some sample;
    in particular, if all sample times are between [lo] and [hi], so are the
    start and the end of every visit. *)
Theorem find_visits_within_span (pts : list TrackPoint) (g : GeofenceCircle)
    (p : VisitParams) (vs : list Visit) :
  find_visits pts g p = Some vs ->
  Forall (fun v =>
            exists a b, In a pts /\ In b pts /\
                        geo_time_ms a <= start_ms v /\
                        end_ms v <= geo_time_ms b) vs /\
  (forall lo hi,
      Forall (fun pt => lo <= geo_time_ms pt <= hi) pts ->
      Forall (fun v => lo <= start_ms v /\ end_ms v <= hi) vs).
Proof.
  intro H. split.
  - exact (find_visits_between_samples pts g p vs H).
  - intros lo hi Hspan. exact (find_visits_span pts g p vs lo hi H Hspan).
Qed.

(** ** Sample counts *)

Lemma sum_points_app (vs ws : list Visit) :
  sum_points (vs ++ ws) = sum_points vs + sum_points ws.
Proof.
  induction vs as [|v vs IH]; simpl; [reflexivity|]. rewrite IH. lia.
Qed.

Lemma count_inside_cons (g : GeofenceCircle) (pt : TrackPoint)
    (pts : list TrackPoint) :
  count_inside g (pt :: pts)
  = (if inside g pt then 1 else 0) + count_inside g pts.
Proof.
  unfold count_inside. cbn [filter].
  destruct (inside g pt); cbn [List.length]; lia.
Qed.

Lemma count_inside_perm (g : GeofenceCircle) (l l' : list TrackPoint) :
  Permutation l l' -> count_inside g l = count_inside g l'.
Proof.
  induction 1 as [|x l l' _ IH|x y l|l l' l'' _ IH1 _ IH2].
  - reflexivity.
  - rewrite !count_inside_cons. lia.
  - rewrite !count_inside_cons. lia.
  - congruence.
Qed.

Lemma _append_visit_points (vs vs' : list Visit) (id s e n : Z)
    (m tz : string) (md : float) :
  1 <= n ->
  Forall (fun v => 1 <= points v) vs ->
  _append_visit vs id s e n m tz md = Some vs' ->
  Forall (fun v => 1 <= points v) vs' /\
  sum_points vs' <= sum_points vs + n /\
  (List.length vs' <= S (List.length vs))%nat.
Proof.
  intros Hn Hvs H.
  apply _append_visit_cases in H as [->|(_ & _ & sd & ed & ->)].
  - repeat split; auto; lia.
  - repeat split.
    + apply Forall_app. split; auto.
    + rewrite sum_points_app. simpl. lia.
    + rewrite length_app. simpl. lia.
Qed.

Lemma loop_body_points (g : GeofenceCircle) (p : VisitParams) (n : Z)
    (st st' : Locals) (cur : TrackPoint) :
  points_inv n st ->
  loop_body g p st cur = Some st' ->
  points_inv (n + (if inside g cur then 1 else 0)) st'.
Proof.
  intros (Hvs & Hopen & Hsum) H. unfold points_inv.
  unfold loop_body in H. cbv zeta in H.
  destruct (in_visit st) eqn:Hin; cbn [negb] in H;
    destruct (inside g cur) eqn:Hcur;
    rewrite ?andb_false_r, ?andb_true_r in H;
    repeat match type of H with
           | context [if ?c then _ else _] => destruct c eqn:?
           end;
    try (injection H as <-; simpl; rewrite ?Hin;
         repeat split; auto; try discriminate;
         try specialize (Hopen eq_refl); lia);
    apply bind_Some in H as (vs & Hvs' & [= <-]); simpl;
    specialize (Hopen eq_refl);
    apply _append_visit_points in Hvs' as (Hf & Hle & _); auto;
    repeat split; auto; try discriminate; lia.
Qed.

Lemma run_loop_points (g : GeofenceCircle) (p : VisitParams)
    (rest : list TrackPoint) (n : Z) (st st' : Locals) :
  points_inv n st ->
  run_loop g p rest st = Some st' ->
  points_inv (n + count_inside g rest) st'.
Proof.
  revert n st. induction rest as [|cur rest IH]; simpl; intros n st Hinv H.
  - injection H as <-. unfold count_inside. simpl.
    now replace (n + 0) with n by lia.
  - apply bind_Some in H as (st1 & H1 & H).
    rewrite count_inside_cons.
    replace (n + ((if inside g cur then 1 else 0) + count_inside g rest))
      with (n + (if inside g cur then 1 else 0) + count_inside g rest)
      by lia.
    eapply IH; [|exact H]. eapply loop_body_points; eauto.
Qed.

Lemma length_le_sum_points (vs : list Visit) :
  Forall (fun v => 1 <= points v) vs ->
  Z.of_nat (List.length vs) <= sum_points vs.
Proof.
  induction 1 as [|v vs Hv _ IH]; simpl; lia.
Qed.

(** X5. Every returned visit counts at least one sample, a sample is counted
    in at most one visit and only if it is inside: the sample counts of the
    visits add up to at most the number of inside samples of the input, and
    so does the number of visits. *)
Theorem find_visits_sample_counts (pts : list TrackPoint)
    (g : GeofenceCircle) (p : VisitParams) (vs : list Visit) :
  find_visits pts g p = Some vs ->
  Forall (fun v => 1 <= points v) vs /\
  sum_points vs <= count_inside g pts /\
  Z.of_nat (List.length vs) <= count_inside g pts.
Proof.
  intro H. unfold find_visits in H.
  rewrite (count_inside_perm g pts (sorted geo_time_ms pts))
    by apply Permutation_sym, sorted_perm.
  destruct (sorted geo_time_ms pts) as [|p0 rest].
  { injection H as <-. unfold count_inside. simpl.
    repeat split; [constructor | lia | lia]. }
  apply bind_Some in H as (st & Hrun & H).
  assert (Hinit : points_inv (if inside g p0 then 1 else 0)
                    (initial_locals g p0)).
  { unfold points_inv, initial_locals.
    destruct (inside g p0); simpl; repeat split;
      try constructor; try lia; discriminate. }
  apply (run_loop_points g p rest _ _ _ Hinit) in Hrun
    as (Hvs & Hopen & Hsum).
  rewrite count_inside_cons.
  assert (Hres : Forall (fun v => 1 <= points v) vs /\
                 sum_points vs
                 <= (if inside g p0 then 1 else 0) + count_inside g rest).
  { unfold close_at_end in H. destruct (in_visit st) eqn:Hin.
    - specialize (Hopen eq_refl).
      apply _append_visit_points in H as (Hf & Hle & _); auto.
      split; [exact Hf | lia].
    - injection H as <-. split; [exact Hvs | lia]. }
  destruct Hres as [Hf Hle]. repeat split; auto.
  pose proof (length_le_sum_points vs Hf). lia.
Qed.

(** ** Method tags *)

Lemma loop_body_tags (g : GeofenceCircle) (p : VisitParams)
    (st st' : Locals) (cur : TrackPoint) :
  (Forall (fun v => In (method v) closing_tags) (visits st) /\
   (in_visit st = true -> In (cur_method st) opening_tags)) ->
  loop_body g p st cur = Some st' ->
  Forall (fun v => In (method v) closing_tags) (visits st') /\
  (in_visit st' = true -> In (cur_method st') opening_tags).
Proof.
  intros (Hvs & Hopen) H.
  step_cases H Hin;
    try (injection H as <-; simpl; split; auto;
         first [discriminate | intros _; simpl; tauto]);
    apply bind_Some in H as (vs & Hvs' & [= <-]); simpl;
    (eapply _append_visit_Forall
       with (P := fun v => In (method v) closing_tags) in Hvs';
     [|intros; simpl; tauto|exact Hvs]);
    split; auto; first [discriminate | intros _; simpl; tauto].
Qed.

(** X6. All returned visits but possibly the last carry the tag of the event
    that closed them, "split_on_inside_gap" or "exit_grace"; the last one
    carries either such a tag or, when it was closed by the end of the
    stream, the tag of the event that opened it.  The initial tag "midpoint"
    is never reported. *)
Theorem find_visits_method_tags (pts : list TrackPoint)
    (g : GeofenceCircle) (p : VisitParams) (vs : list Visit) :
  find_visits pts g p = Some vs ->
  Forall (fun v => In (method v) closing_tags) (removelast vs) /\
  Forall (fun v => In (method v) (closing_tags ++ opening_tags)) vs.
Proof.
  intro H. unfold find_visits in H.
  destruct (sorted geo_time_ms pts) as [|p0 rest].
  { injection H as <-. split; constructor. }
  apply bind_Some in H as (st & Hrun & H).
  assert (Hinv : Forall (fun v => In (method v) closing_tags) (visits st) /\
                 (in_visit st = true -> In (cur_method st) opening_tags)).
  { refine (run_loop_invariant g p
              (fun s => Forall (fun v => In (method v) closing_tags)
                          (visits s) /\
                        (in_visit s = true ->
                         In (cur_method s) opening_tags))
              _ rest _ _ _ Hrun).
    - intros s cur s'. apply loop_body_tags.
    - rewrite initial_locals_visits. split; [constructor|].
      unfold initial_locals. destruct (inside g p0); simpl;
        [intros _; tauto | discriminate]. }
  destruct Hinv as (Hvs & Hopen).
  assert (Hall : Forall
                   (fun v => In (method v) (closing_tags ++ opening_tags))
                   (visits st)).
  { eapply Forall_impl; [|exact Hvs]. intros v Hv.
    apply in_or_app. now left. }
  assert (Hrl : Forall (fun v => In (method v) closing_tags)
                  (removelast (visits st))).
  { rewrite Forall_forall in *. intros v Hv. apply Hvs.
    clear - Hv. induction (visits st) as [|a [|b l] IH]; simpl in *; tauto. }
  unfold close_at_end in H. destruct (in_visit st) eqn:Hin.
  - apply _append_visit_cases in H as [->|(_ & _ & sd & ed & ->)]; auto.
    split.
    + rewrite removelast_last. exact Hvs.
    + apply Forall_app. split; [exact Hall|].
      constructor; [|constructor]. cbn [method].
      apply in_or_app. right. exact (Hopen eq_refl).
  - injection H as <-. auto.
Qed.

(** ** Sequence numbers are bounded by the number of samples *)

Lemma loop_body_id_bound (g : GeofenceCircle) (p : VisitParams) (n : Z)
    (st st' : Locals) (cur : TrackPoint) :
  (Forall (fun v => 1 <= visit_id v < next_visit_id st) (visits st) /\
   1 <= next_visit_id st <= n) ->
  loop_body g p st cur = Some st' ->
  Forall (fun v => 1 <= visit_id v < next_visit_id st') (visits st') /\
  1 <= next_visit_id st' <= n + 1.
Proof.
  intros (Hvs & Hn) H.
  apply loop_body_attempt in H as [[-> ->]|(s & e & k & m & H & ->)].
  - split; [exact Hvs | lia].
  - split; [|lia].
    apply _append_visit_cases in H as [->|(_ & _ & sd & ed & ->)].
    + eapply Forall_impl; [|exact Hvs]. simpl. intros; lia.
    + apply Forall_app. split.
      * eapply Forall_impl; [|exact Hvs]. simpl. intros; lia.
      * repeat constructor; simpl; lia.
Qed.

Lemma run_loop_id_bound (g : GeofenceCircle) (p : VisitParams)
    (rest : list TrackPoint) (n : Z) (st st' : Locals) :
  (Forall (fun v => 1 <= visit_id v < next_visit_id st) (visits st) /\
   1 <= next_visit_id st <= n) ->
  run_loop g p rest st = Some st' ->
  Forall (fun v => 1 <= visit_id v < next_visit_id st') (visits st') /\
  1 <= next_visit_id st' <= n + Z.of_nat (List.length rest).
Proof.
  revert n st. induction rest as [|cur rest IH]; intros n st Hinv H.
  - simpl in H. injection H as <-. simpl. destruct Hinv. split; auto; lia.
  - simpl in H. apply bind_Some in H as (st1 & H1 & H).
    pose proof (loop_body_id_bound g p n st st1 cur Hinv H1) as Hinv1.
    specialize (IH (n + 1) st1 Hinv1 H).
    cbn [List.length]. destruct IH as [IH1 IH2]. split; auto. lia.
Qed.

(** X7. The sequence number of every returned visit is between 1 and the
    number of input samples. *)
Theorem find_visits_id_bounds (pts : list TrackPoint) (g : GeofenceCircle)
    (p : VisitParams) (vs : list Visit) :
  find_visits pts g p = Some vs ->
  Forall (fun v => 1 <= visit_id v <= Z.of_nat (List.length pts)) vs.
Proof.
  intro H. unfold find_visits in H.
  rewrite <- (Permutation_length (sorted_perm geo_time_ms pts)).
  destruct (sorted geo_time_ms pts) as [|p0 rest].
  { injection H as <-. constructor. }
  apply bind_Some in H as (st & Hrun & H).
  apply (run_loop_id_bound g p rest 1) in Hrun as (Hvs & Hn).
  2:{ rewrite initial_locals_visits. split; [constructor|].
      unfold initial_locals. destruct (inside g p0); simpl; lia. }
  cbn [List.length].
  assert (Hvs' : Forall (fun v => 1 <= visit_id v
                                  <= Z.of_nat (S (List.length rest)))
                   (visits st)).
  { eapply Forall_impl; [|exact Hvs]. simpl. intros; lia. }
  unfold close_at_end in H. destruct (in_visit st).
  - eapply _append_visit_Forall in H; [exact H| |exact Hvs'].
    intros; simpl; lia.
  - now injection H as <-.
Qed.

(** ** Readable timestamps *)

(** X8. In every returned visit the readable start and end are the
    conversions of [start_ms] and [end_ms] in the zone of the parameters. *)
Theorem find_visits_datetimes (pts : list TrackPoint) (g : GeofenceCircle)
    (p : VisitParams) (vs : list Visit) :
  find_visits pts g p = Some vs ->
  Forall (fun v =>
            dt_from_epoch_ms (start_ms v) (tz_name p) = Some (start_dt v) /\
            dt_from_epoch_ms (end_ms v) (tz_name p) = Some (end_dt v)) vs.
Proof.
  set (P := fun v =>
              dt_from_epoch_ms (start_ms v) (tz_name p) = Some (start_dt v) /\
              dt_from_epoch_ms (end_ms v) (tz_name p) = Some (end_dt v)).
  assert (Happ : forall acc acc' id s e n m,
             Forall P acc ->
             _append_visit acc id s e n m (tz_name p) (min_dwell_seconds p)
             = Some acc' ->
             Forall P acc').
  { intros acc acc' id s e n m Hacc H.
    apply _append_visit_inv in H
      as [->|(_ & _ & sd & ed & Hs & He & ->)]; auto.
    apply Forall_app. split; auto. repeat constructor; assumption. }
  intro H. unfold find_visits in H.
  destruct (sorted geo_time_ms pts) as [|p0 rest].
  { injection H as <-. constructor. }
  apply bind_Some in H as (st & Hrun & H).
  assert (Hinv : Forall P (visits st)).
  { refine (run_loop_invariant g p (fun s => Forall P (visits s))
              _ rest _ _ _ Hrun).
    - intros s cur s' Hs Hb.
      apply loop_body_attempt in Hb as [[-> _]|(a & b & n & m & Hb & _)];
        eauto.
    - rewrite initial_locals_visits. constructor. }
  unfold close_at_end in H. destruct (in_visit st).
  - eapply Happ; eauto.
  - now injection H as <-.
Qed.

(** ** Total presence time *)

Lemma div1000_nonneg (ms : Z) : 0 <= ms -> (0 <= div1000 ms)%Q.
Proof.
  unfold div1000, Qle, Qdiv, Qmult, Qinv, inject_Z; simpl. lia.
Qed.

Lemma total_ms_chronological (vs : list Visit) (lo hi : Z) :
  lo <= hi ->
  StronglySorted before vs ->
  Forall (fun v => start_ms v < end_ms v) vs ->
  Forall (fun v => lo <= start_ms v /\ end_ms v <= hi) vs ->
  total_ms vs <= hi - lo.
Proof.
  intros Hlohi Hs. revert lo Hlohi.
  induction Hs as [|v vs Hs IH Hv]; intros lo Hlohi Hpos Hin.
  - simpl. lia.
  - inversion Hpos as [|? ? Hvpos Hpos']; subst.
    inversion Hin as [|? ? Hvin Hin']; subst.
    simpl. fold (total_ms vs).
    assert (Hrest : Forall (fun w => end_ms v <= start_ms w /\
                                     end_ms w <= hi) vs).
    { rewrite Forall_forall in *. intros w Hw.
      specialize (Hv w Hw). specialize (Hin' w Hw). unfold before in Hv.
      lia. }
    specialize (IH (end_ms v) ltac:(lia) Hpos' Hrest). lia.
Qed.

Lemma find_visits_sorted_before (pts : list TrackPoint)
    (g : GeofenceCircle) (p : VisitParams) (vs : list Visit) :
  find_visits pts g p = Some vs -> StronglySorted before vs.
Proof.
  intro H. unfold find_visits in H.
  pose proof (sorted_sorted geo_time_ms pts) as Hsorted.
  destruct (sorted geo_time_ms pts) as [|p0 rest].
  - injection H as <-. constructor.
  - apply bind_Some in H as (st & Hrun & H).
    destruct (initial_locals_chrono g p0) as [Hinit Hprev].
    apply run_loop_chrono in Hrun; [|now rewrite Hprev|exact Hinit].
    destruct Hrun as (Hs & Hb & Hin).
    unfold close_at_end in H. destruct (in_visit st).
    + destruct (Hin eq_refl) as (_ & _ & _ & Hst).
      apply _append_visit_cases in H as [->|(_ & _ & sd & ed & ->)]; auto.
      apply StronglySorted_snoc; assumption.
    + now injection H as <-.
Qed.

(** X10. The presence time is bounded by the recorded time span: the
    returned visits do not overlap and lie between the first and the last
    sample, so if all sample times are between [lo] and [hi], the milliseconds
    the visits of [find_visits] cover add up to at most [hi - lo]. *)
Theorem find_visits_total_within_span (pts : list TrackPoint)
    (g : GeofenceCircle) (p : VisitParams) (vs : list Visit) (lo hi : Z) :
  find_visits pts g p = Some vs ->
  lo <= hi ->
  Forall (fun pt => lo <= geo_time_ms pt <= hi) pts ->
  total_ms vs <= hi - lo.
Proof.
  intros H Hlohi Hspan.
  apply total_ms_chronological; auto.
  - exact (find_visits_sorted_before pts g p vs H).
  - pose proof (find_visits_dwell g p pts vs H) as Hd.
    eapply Forall_impl; [|exact Hd]. intros v [Hv _]. exact Hv.
  - eapply find_visits_span; eauto.
Qed.

(** ** Jitter shorter than the grace period *)

Lemma loop_body_pending_stays (g : GeofenceCircle) (p : VisitParams)
    (t1 : Z) (st : Locals) (o : TrackPoint) :
  (0 < exit_grace_seconds p)%Q ->
  in_visit st = true ->
  outside_started_ms st = Some t1 ->
  inside g o = false ->
  (div1000 (geo_time_ms o - t1) < exit_grace_seconds p)%Q ->
  loop_body g p st o
  = Some (mkLocals (visits st) true (visit_start_ms st) (visit_end_ms st)
            (last_inside_ms st) (Some t1) (visit_points st)
            (next_visit_id st) (cur_method st) o false).
Proof.
  intros Hgrace Hin Hos Ho Hlt. unfold loop_body.
  rewrite Hin, Ho, Hos. simpl.
  apply Qle_bool_false in Hlt, Hgrace.
  destruct (geo_time_ms o >=? t1); [now rewrite Hlt | now rewrite Hgrace].
Qed.

Lemma run_loop_pending (g : GeofenceCircle) (p : VisitParams) (t1 : Z)
    (cur : TrackPoint) (outs : list TrackPoint) (st : Locals) :
  (0 < exit_grace_seconds p)%Q ->
  in_visit st = true ->
  outside_started_ms st = Some t1 ->
  Forall (fun o => inside g o = false /\
                   (div1000 (geo_time_ms o - t1)
                    < exit_grace_seconds p)%Q) outs ->
  inside g cur = true ->
  (last_inside_ms st <= 0 \/
   (div1000 (geo_time_ms cur - last_inside_ms st)
    <= max_gap_seconds p)%Q) ->
  run_loop g p (outs ++ [cur]) st
  = Some (mkLocals (visits st) true (visit_start_ms st) (geo_time_ms cur)
            (geo_time_ms cur) None (visit_points st + 1) (next_visit_id st)
            (cur_method st) cur true).
Proof.
  intros Hgrace. revert st.
  induction outs as [|o outs IH]; intros st Hin Hos Houts Hcur Hgap.
  - simpl. unfold loop_body. rewrite Hin, Hcur. simpl.
    replace ((last_inside_ms st >? 0)
             && Qlt_bool (max_gap_seconds p)
                  (div1000 (geo_time_ms cur - last_inside_ms st)))
      with false; [reflexivity|].
    symmetry. destruct Hgap as [Hle|Hle].
    + replace (last_inside_ms st >? 0) with false; [reflexivity|].
      symmetry. rewrite Z.gtb_ltb. apply Z.ltb_ge. lia.
    + apply Qlt_bool_false in Hle. rewrite Hle. apply andb_false_r.
  - inversion Houts as [|? ? [Ho Hlt] Hrest]; subst.
    cbn [app run_loop].
    rewrite (loop_body_pending_stays g p t1 st o) by assumption.
    cbn [bind].
    match goal with
    | |- run_loop _ _ _ ?s = _ => rewrite (IH s); simpl; auto
    end.
Qed.

(** X11. Jitter is debounced.  From state INSIDE, a run of outside samples
    that all come less than [exit_grace_seconds] after the first of them,
    followed by an inside sample within [max_gap_seconds] of the last inside
    sample, closes nothing: the visit goes on with the same start, one more
    sample counted, its end at the new inside sample, and the counter
    untouched. *)
Theorem jitter_is_debounced (g : GeofenceCircle) (p : VisitParams)
    (st : Locals) (o1 cur : TrackPoint) (outs : list TrackPoint) :
  engine_state st = INSIDE ->
  Forall (fun o => inside g o = false /\
                   (div1000 (geo_time_ms o - geo_time_ms o1)
                    < exit_grace_seconds p)%Q) (o1 :: outs) ->
  inside g cur = true ->
  (last_inside_ms st <= 0 \/
   (div1000 (geo_time_ms cur - last_inside_ms st)
    <= max_gap_seconds p)%Q) ->
  run_loop g p (o1 :: outs ++ [cur]) st
  = Some (mkLocals (visits st) true (visit_start_ms st) (geo_time_ms cur)
            (geo_time_ms cur) None (visit_points st + 1) (next_visit_id st)
            (cur_method st) cur true).
Proof.
  intros Hstate Houts Hcur Hgap.
  unfold engine_state in Hstate.
  destruct (in_visit st) eqn:Hin; [|discriminate].
  destruct (outside_started_ms st) eqn:Hos; [discriminate|].
  inversion Houts as [|? ? [Ho1 Hlt1] Hrest]; subst.
  assert (Hgrace : (0 < exit_grace_seconds p)%Q).
  { eapply Qle_lt_trans; [|exact Hlt1]. apply div1000_nonneg. lia. }
  assert (Hfirst : loop_body g p st o1
                   = Some (mkLocals (visits st) true (visit_start_ms st)
                             (visit_end_ms st) (last_inside_ms st)
                             (Some (geo_time_ms o1)) (visit_points st)
                             (next_visit_id st) (cur_method st) o1 false)).
  { unfold loop_body. rewrite Hin, Ho1, Hos. simpl.
    rewrite Z.geb_leb, Z.leb_refl.
    now rewrite (div1000_diag_lt _ _ Hgrace). }
  cbn [run_loop]. rewrite Hfirst. cbn [bind].
  match goal with
  | |- run_loop _ _ _ ?s = _ =>
      rewrite (run_loop_pending g p (geo_time_ms o1) cur outs s);
        simpl; auto
  end.
Qed.

(** ** The range of the command line *)

(** X23. The visits that [find-visits] writes for a range lie within the
    range: none starts before the lower bound or ends after the upper bound,
    when these are given. *)
Theorem _cmd_find_visits_within_range (points : list TrackPoint)
    (rs re : option Z) (g : GeofenceCircle) (p : VisitParams)
    (vs : list Visit) :
  _cmd_find_visits points rs re g p = Some vs ->
  Forall (fun v =>
            (forall s, rs = Some s -> s <= start_ms v) /\
            (forall e, re = Some e -> end_ms v <= e)) vs.
Proof.
  unfold _cmd_find_visits. cbv zeta. intro H.
  apply find_visits_between_samples in H.
  eapply Forall_impl; [|exact H].
  intros v (a & b & Ha & Hb & Hlo & Hhi). split.
  - intros s ->.
    assert (Hin : In a (filter (fun pt => geo_time_ms pt >=? s) points)).
    { destruct re; [apply filter_In in Ha as [Ha _]|]; exact Ha. }
    apply filter_In in Hin as [_ Hs].
    rewrite Z.geb_leb in Hs. apply Z.leb_le in Hs. lia.
  - intros e ->. apply filter_In in Hb as [_ He].
    apply Z.leb_le in He. lia.
Qed.

(** ** A tag that is never reported *)

Lemma loop_body_entry_tag (g : GeofenceCircle) (p : VisitParams)
    (st st' : Locals) (cur : TrackPoint) :
  ((in_visit st = false -> prev_inside st = false) /\
   Forall (fun v => method v <> "start_at_inside"%string) (visits st) /\
   (in_visit st = true -> cur_method st <> "start_at_inside"%string)) ->
  loop_body g p st cur = Some st' ->
  (in_visit st' = false -> prev_inside st' = false) /\
  Forall (fun v => method v <> "start_at_inside"%string) (visits st') /\
  (in_visit st' = true -> cur_method st' <> "start_at_inside"%string).
Proof.
  intros (Hprev & Hvs & Hopen) H.
  unfold loop_body in H. cbv zeta in H.
  destruct (in_visit st) eqn:Hin; cbn [negb] in H.
  - specialize (Hopen eq_refl).
    repeat match type of H with
           | context [if ?c then _ else _] => destruct c eqn:?
           end;
      try (injection H as <-; simpl; repeat split; auto; discriminate);
      apply bind_Some in H as (vs & Hvs' & [= <-]); simpl;
      (eapply _append_visit_Forall
         with (P := fun v => method v <> "start_at_inside"%string) in Hvs';
       [|intros; simpl; discriminate|exact Hvs]);
      repeat split; auto; discriminate.
  - rewrite (Hprev eq_refl) in H. cbn [negb andb] in H.
    destruct (inside g cur) eqn:Hcur;
      injection H as <-; simpl; repeat split; auto; discriminate.
Qed.

(** X24. Whenever the engine is OUTSIDE the previous sample was outside, so
    a visit opened inside the loop always gets an estimated entry boundary:
    the tag "start_at_inside" is never reported. *)
Theorem find_visits_never_start_at_inside (pts : list TrackPoint)
    (g : GeofenceCircle) (p : VisitParams) (vs : list Visit) :
  find_visits pts g p = Some vs ->
  Forall (fun v => method v <> "start_at_inside"%string) vs.
Proof.
  intro H. unfold find_visits in H.
  destruct (sorted geo_time_ms pts) as [|p0 rest].
  { injection H as <-. constructor. }
  apply bind_Some in H as (st & Hrun & H).
  assert (Hinv : (in_visit st = false -> prev_inside st = false) /\
                 Forall (fun v => method v <> "start_at_inside"%string)
                   (visits st) /\
                 (in_visit st = true ->
                  cur_method st <> "start_at_inside"%string)).
  { refine (run_loop_invariant g p
              (fun s =>
                 (in_visit s = false -> prev_inside s = false) /\
                 Forall (fun v => method v <> "start_at_inside"%string)
                   (visits s) /\
                 (in_visit s = true ->
                  cur_method s <> "start_at_inside"%string))
              _ rest _ _ _ Hrun).
    - intros s cur s'. apply loop_body_entry_tag.
    - rewrite initial_locals_visits. unfold initial_locals.
      destruct (inside g p0); simpl; repeat split;
        try constructor; try discriminate; auto. }
  destruct Hinv as (_ & Hvs & Hopen).
  unfold close_at_end in H. destruct (in_visit st).
  - eapply _append_visit_Forall in H; [exact H| |exact Hvs].
    intros; simpl. now apply Hopen.
  - now injection H as <-.
Qed.

End Engine.

(** * Worked runs

    The engine is run here with the distances and the zone conversion of the
    worked inputs. *)

(** The spec's minimum example, through C1. *)
Lemma find_visits_min_dwell_witness :
  find_visits haversine_at utc_datetime
    [sample_in 0; sample_in 60000; sample_out 120000; sample_out 720000]
    fence (mkVisitParams "UTC" 43200 300 600 30)
  = Some [mkVisit 1 (utc 0) (utc 90000) 0 90000 2 "exit_grace"] /\
  Forall (fun v =>
            start_ms v < end_ms v /\
            (30 <= div1000 (end_ms v - start_ms v))%Q)
    [mkVisit 1 (utc 0) (utc 90000) 0 90000 2 "exit_grace"].
Proof.
  assert (H : find_visits haversine_at utc_datetime
                [sample_in 0; sample_in 60000; sample_out 120000;
                 sample_out 720000]
                fence (mkVisitParams "UTC" 43200 300 600 30)
              = Some [mkVisit 1 (utc 0) (utc 90000) 0 90000 2 "exit_grace"])
    by (vm_compute; reflexivity).
  split; [exact H|].
  exact (proj1 (find_visits_min_dwell haversine_at utc_datetime _ _ _ _ H)).
Defined.

(** Under the default grace of 300 s, the first outside sample after two
    inside samples only starts the pending exit. *)
Lemma exit_grace_transition_witness :
  (0 < exit_grace_seconds (default_params "UTC"))%Q /\
  inside haversine_at fence (sample_out 120000) = false /\
  engine_state locals_two_inside = INSIDE /\
  loop_body haversine_at utc_datetime fence (default_params "UTC")
    locals_two_inside (sample_out 120000)
  = Some locals_pending.
Proof.
  assert (H0 : (0 < exit_grace_seconds (default_params "UTC"))%Q)
    by reflexivity.
  assert (H1 : inside haversine_at fence (sample_out 120000) = false)
    by reflexivity.
  split; [exact H0|]. split; [exact H1|]. split; [reflexivity|].
  exact (proj1 (exit_grace_transition haversine_at utc_datetime fence
                  (default_params "UTC") locals_two_inside
                  (sample_out 120000) H0 H1) eq_refl).
Defined.

(** C2, as stated, fails without a grace period: with [exit_grace = 0] the
    first outside sample met in state INSIDE closes the visit at once, and
    the engine goes to OUTSIDE instead of INSIDE_PENDING_EXIT. *)
Lemma exit_without_grace_closes_at_once :
  run_loop haversine_at utc_datetime fence params_no_grace [sample_in 60000]
    (initial_locals haversine_at fence (sample_in 0))
  = Some locals_two_inside /\
  engine_state locals_two_inside = INSIDE /\
  inside haversine_at fence (sample_out 120000) = false /\
  loop_body haversine_at utc_datetime fence params_no_grace
    locals_two_inside (sample_out 120000)
  = Some (mkLocals [mkVisit 1 (utc 0) (utc 90000) 0 90000 2 "exit_grace"]
            false 0 90000 60000 None 0 2 "start_at_first_inside"
            (sample_out 120000) false) /\
  engine_state
    (mkLocals [mkVisit 1 (utc 0) (utc 90000) 0 90000 2 "exit_grace"]
       false 0 90000 60000 None 0 2 "start_at_first_inside"
       (sample_out 120000) false)
  = OUTSIDE.
Proof. repeat split; vm_compute; reflexivity. Qed.

(** The boundary of the spec's minimum example, through C3. *)
Lemma boundary_ms_cases_witness :
  _boundary_ms 60000 120000 600 "prev" = 90000 /\
  _boundary_ms 120000 60000 600 "cur" = 120000 /\
  _boundary_ms 0 1000000 600 "cur" = 1000000.
Proof.
  split; [|split].
  - refine (proj1 (proj2 (boundary_ms_cases 60000 120000 600 "prev")) _ _).
    + lia.
    + vm_compute. discriminate.
  - refine (proj1 (boundary_ms_cases 120000 60000 600 "cur") _). lia.
  - refine (proj2 (proj2 (proj2 (proj2
              (boundary_ms_cases 0 1000000 600 "cur")) _ _)) eq_refl).
    + lia.
    + reflexivity.
Defined.

(** Four inside samples at 0 s, 60 s, 100 000 s and 100 060 s with
    [max_gap = 3600]: two visits, the first ending at 60 s and the second
    starting at 100 000 s, through C4 as amended. *)
Lemma gap_between_inside_samples_splits_witness :
  find_visits haversine_at utc_datetime
    [sample_in 0; sample_in 60000; sample_in 100000000;
     sample_in 100060000] fence params_gap
  = Some [mkVisit 1 (utc 0) (utc 60000) 0 60000 2
            "split_on_inside_gap";
          mkVisit 2 (utc 100000000) (utc 100060000) 100000000 100060000 2
            "restart_after_gap"].
Proof.
  apply (gap_between_inside_samples_splits haversine_at utc_datetime fence
           params_gap (sample_in 0) (sample_in 60000)
           (sample_in 100000000) (sample_in 100060000));
    first [reflexivity | (simpl; lia) | (vm_compute; discriminate)].
Defined.

(** C4, as stated, fails: inside samples at 0 s and 100 000 s with
    [max_gap = 3600] give one visit from 0 s to 100 000 s, and no choice of
    the other parameters gives two visits. *)
Lemma two_inside_samples_not_two_visits :
  find_visits haversine_at utc_datetime
    [sample_in 0; sample_in 100000000] fence params_gap
  = Some [mkVisit 1 (utc 0) (utc 100000000) 0 100000000 2
            "start_at_first_inside"] /\
  ~ (exists p v1 v2,
        max_gap_seconds p = 3600%Q /\
        find_visits haversine_at utc_datetime
          [sample_in 0; sample_in 100000000] fence p
        = Some [v1; v2]).
Proof.
  split; [vm_compute; reflexivity|].
  intros (p & v1 & v2 & _ & H).
  unfold find_visits in H. cbn in H.
  destruct (Qlt_bool _ (min_dwell_seconds p)); discriminate.
Qed.

(** A run in which the second closing attempt is rejected (a visit of one
    sample): the emitted numbers are 1 and 3, increasing, and no visit bears
    the number 2 of the rejected candidate, through C6. *)
Lemma visit_ids_strictly_increasing_witness :
  find_visits haversine_at utc_datetime
    [sample_in 1000; sample_in 61000; sample_in 100000000;
     sample_in 200000000; sample_in 200060000] fence params_gap
  = Some [mkVisit 1 (utc 1000) (utc 61000) 1000 61000 2
            "split_on_inside_gap";
          mkVisit 3 (utc 200000000) (utc 200060000) 200000000 200060000 2
            "restart_after_gap"] /\
  StronglySorted (fun v w => visit_id v < visit_id w)
    [mkVisit 1 (utc 1000) (utc 61000) 1000 61000 2 "split_on_inside_gap";
     mkVisit 3 (utc 200000000) (utc 200060000) 200000000 200060000 2
       "restart_after_gap"] /\
  Forall (fun v => visit_id v <> 2)
    [mkVisit 1 (utc 1000) (utc 61000) 1000 61000 2 "split_on_inside_gap";
     mkVisit 3 (utc 200000000) (utc 200060000) 200000000 200060000 2
       "restart_after_gap"].
Proof.
  assert (H : find_visits haversine_at utc_datetime
                [sample_in 1000; sample_in 61000; sample_in 100000000;
                 sample_in 200000000; sample_in 200060000] fence params_gap
              = Some [mkVisit 1 (utc 1000) (utc 61000) 1000 61000 2
                        "split_on_inside_gap";
                      mkVisit 3 (utc 200000000) (utc 200060000)
                        200000000 200060000 2 "restart_after_gap"])
    by (vm_compute; reflexivity).
  split; [exact H|]. split.
  - exact (proj1 (proj2 (proj2
             (visit_ids_strictly_increasing haversine_at utc_datetime
                fence params_gap))) _ _ H).
  - refine (proj2 (proj2 (proj2
              (visit_ids_strictly_increasing haversine_at utc_datetime
                 fence params_gap)))
              [sample_in 1000; sample_in 61000; sample_in 100000000;
               sample_in 200000000; sample_in 200060000]
              (sample_in 1000) [sample_in 61000; sample_in 100000000]
              (sample_in 200000000) [sample_in 200060000]
              (mkLocals
                 [mkVisit 1 (utc 1000) (utc 61000) 1000 61000 2
                    "split_on_inside_gap"]
                 true 100000000 100000000 100000000 None 1 2
                 "restart_after_gap" (sample_in 100000000) true)
              100000000 100000000 1 "split_on_inside_gap"%string _
              _ _ _ _ H).
    + vm_compute; reflexivity.
    + vm_compute; reflexivity.
    + vm_compute; reflexivity.
    + left. lia.
Defined.

(** The spec's minimum example, shuffled, through C8. *)
Lemma find_visits_order_insensitive_witness :
  find_visits haversine_at utc_datetime
    [sample_out 720000; sample_in 60000; sample_in 0; sample_out 120000]
    fence (default_params "UTC")
  = find_visits haversine_at utc_datetime
      [sample_in 0; sample_in 60000; sample_out 120000; sample_out 720000]
      fence (default_params "UTC").
Proof.
  apply find_visits_order_insensitive.
  - repeat constructor; simpl; intuition discriminate.
  - exact (sorted_sorted geo_time_ms
             [sample_out 720000; sample_in 60000; sample_in 0;
              sample_out 120000]).
  - exact (sorted_perm geo_time_ms
             [sample_out 720000; sample_in 60000; sample_in 0;
              sample_out 120000]).
Defined.

(** The two visits of the gap example do not overlap, through C9. *)
Lemma find_visits_chronological_witness :
  find_visits haversine_at utc_datetime
    [sample_in 1000; sample_in 61000; sample_in 100000000;
     sample_in 100060000] fence params_gap
  = Some [mkVisit 1 (utc 1000) (utc 61000) 1000 61000 2
            "split_on_inside_gap";
          mkVisit 2 (utc 100000000) (utc 100060000) 100000000 100060000 2
            "restart_after_gap"] /\
  StronglySorted before
    [mkVisit 1 (utc 1000) (utc 61000) 1000 61000 2 "split_on_inside_gap";
     mkVisit 2 (utc 100000000) (utc 100060000) 100000000 100060000 2
       "restart_after_gap"].
Proof.
  assert (H : find_visits haversine_at utc_datetime
                [sample_in 1000; sample_in 61000; sample_in 100000000;
                 sample_in 100060000] fence params_gap
              = Some [mkVisit 1 (utc 1000) (utc 61000) 1000 61000 2
                        "split_on_inside_gap";
                      mkVisit 2 (utc 100000000) (utc 100060000)
                        100000000 100060000 2 "restart_after_gap"])
    by (vm_compute; reflexivity).
  split; [exact H|].
  exact (proj1 (find_visits_chronological haversine_at utc_datetime
                  _ _ _ _ H)).
Defined.

(** A stored visit whose end precedes its start lasts 0 s, through C10. *)
Lemma duration_seconds_clamped_witness :
  duration_seconds (mkVisit 1 (utc 5000) (utc 1000) 5000 1000 2 "manual")
  = 0%Q /\
  (0 <= total_seconds
          (sum_visits
             [mkVisit 1 (utc 5000) (utc 1000) 5000 1000 2 "manual"]))%Q.
Proof.
  split.
  - refine (proj1 (proj2 (duration_seconds_clamped
                            (mkVisit 1 (utc 5000) (utc 1000) 5000 1000 2
                               "manual") [])) _).
    simpl. lia.
  - exact (proj2 (proj2 (proj2 (proj2
             (duration_seconds_clamped
                (mkVisit 1 (utc 5000) (utc 1000) 5000 1000 2 "manual")
                [mkVisit 1 (utc 5000) (utc 1000) 5000 1000 2 "manual"]))))).
Defined.

(** * End of stream at a last inside sample of time 0 *)

(** C7. An inside sample at 0 s followed by one outside sample at 120 s,
    under the default parameters: the stream ends in INSIDE_PENDING_EXIT with
    [last_inside = 0], and the open visit is closed at 120 s, the time of the
    outside sample, not at the last inside time; the visit [0 s, 120 s] is
    emitted, with the tag of its opening event. *)
Theorem end_of_stream_closes_at_outside_sample :
  inside haversine_at fence (sample_out 120000) = false /\
  run_loop haversine_at utc_datetime fence (default_params "UTC")
    [sample_out 120000] (initial_locals haversine_at fence (sample_in 0))
  = Some (mkLocals [] true 0 0 0 (Some 120000) 1 1 "start_at_first_inside"
            (sample_out 120000) false) /\
  engine_state
    (mkLocals [] true 0 0 0 (Some 120000) 1 1 "start_at_first_inside"
       (sample_out 120000) false)
  = INSIDE_PENDING_EXIT /\
  find_visits haversine_at utc_datetime [sample_in 0; sample_out 120000]
    fence (default_params "UTC")
  = Some [mkVisit 1 (utc 0) (utc 120000) 0 120000 1
            "start_at_first_inside"].
Proof. repeat split; vm_compute; reflexivity. Qed.

(** * Range-clipped totals *)

(** The command line, given a range, counts every visit of the file. *)
Lemma _cmd_sum_visits_count (visits : list Visit) (rs re : option Z) :
  rs <> None \/ re <> None ->
  total_visits (_cmd_sum_visits visits rs re)
  = Z.of_nat (List.length visits).
Proof.
  unfold _cmd_sum_visits.
  destruct rs, re; simpl; try reflexivity. intros [H|H]; congruence.
Qed.

(** Both paths credit a visit with [max(0, (min(end, range_end) -
    max(start, range_start)) / 1000)] seconds. *)
Lemma clipped_seconds_overlap (v : Visit) (s e : Z) :
  clipped_seconds (Some s) (Some e) (start_ms v) (end_ms v)
  = _overlap_seconds v s e /\
  (_overlap_seconds v s e
   == Qmax 0 (div1000 (Z.min (end_ms v) e - Z.max (start_ms v) s)))%Q.
Proof.
  split; [reflexivity|]. apply py_max_is_max.
Qed.

(** C5. Two stored visits, [1000, 5000] and [10000, 20000] ms, and the range
    [2000, 4000): the second visit lies outside the range and is credited
    0 s, the total is 2 s, and yet the command line reports 2 visits, where
    the dashboard reports 1. *)
Theorem cli_range_count_includes_outside_visits :
  clipped_seconds (Some 2000) (Some 4000) 10000 20000 = 0%Q /\
  (total_seconds
     (_cmd_sum_visits stored_visits (Some 2000%Z) (Some 4000%Z)) == 2)%Q /\
  total_visits (_cmd_sum_visits stored_visits (Some 2000) (Some 4000)) = 2 /\
  total_visits (main_totals stored_visits 2000 4000) = 1 /\
  (total_seconds (main_totals stored_visits 2000 4000) == 2)%Q.
Proof. repeat split; vm_compute; reflexivity. Qed.

(** * Range-clipped totals, continued *)

Lemma py_max_0_le (a b : float) :
  (a <= b)%Q -> (py_max 0 a <= py_max 0 b)%Q.
Proof.
  intro Hab. unfold py_max.
  destruct (Qlt_bool 0 a) eqn:Ea, (Qlt_bool 0 b) eqn:Eb.
  - exact Hab.
  - apply Qlt_bool_true in Ea. apply Qlt_bool_false in Eb.
    exfalso. apply (Qlt_not_le _ _ Ea). now apply Qle_trans with b.
  - apply Qlt_bool_true in Eb. now apply Qlt_le_weak.
  - apply Qle_refl.
Qed.

Lemma clipped_seconds_le_duration (v : Visit) (rs re : option Z) :
  (0 <= clipped_seconds rs re (start_ms v) (end_ms v))%Q /\
  (clipped_seconds rs re (start_ms v) (end_ms v) <= duration_seconds v)%Q.
Proof.
  unfold clipped_seconds, duration_seconds. split.
  - apply py_max_lower.
  - apply py_max_0_le, div1000_le. destruct rs, re; lia.
Qed.

(** X12. Clipping never adds time: whatever the range, a visit is credited
    between 0 s and its own duration, and a visit lying inside the range is
    credited its whole duration. *)
Theorem clipped_seconds_within_duration (rs re : option Z) :
  (forall v,
      (0 <= clipped_seconds rs re (start_ms v) (end_ms v)
       <= duration_seconds v)%Q) /\
  (forall v s e,
      s <= start_ms v -> end_ms v <= e ->
      clipped_seconds (Some s) (Some e) (start_ms v) (end_ms v)
      = duration_seconds v).
Proof.
  split.
  - intro v. apply clipped_seconds_le_duration.
  - intros v s e Hs He. unfold clipped_seconds, duration_seconds.
    now rewrite Z.max_l, Z.min_l by lia.
Qed.

Lemma overlap_positive (v : Visit) (a b : Z) :
  (_overlap_seconds v a b
   == div1000 (Z.max 0 (Z.min (end_ms v) b - Z.max (start_ms v) a)))%Q.
Proof.
  unfold _overlap_seconds.
  destruct (Z_le_gt_dec (Z.min (end_ms v) b - Z.max (start_ms v) a) 0)
    as [H|H].
  - rewrite py_max_nonpositive by (apply div1000_nonpos; exact H).
    rewrite (Z.max_l 0) by lia. reflexivity.
  - rewrite py_max_positive by (apply div1000_pos; lia).
    rewrite (Z.max_r 0) by lia. reflexivity.
Qed.

(** X14. Overlaps add over adjacent ranges, in whole milliseconds.  The
    seconds a visit has in a range are the quotient by 1000 of its
    milliseconds there, and for [a <= b <= c] its milliseconds in [a, c) are
    those in [a, b) and those in [b, c) together. *)
Theorem overlap_seconds_adjacent (v : Visit) (a b c : Z) :
  a <= b -> b <= c ->
  (_overlap_seconds v a b == div1000 (overlap_ms v a b))%Q /\
  (_overlap_seconds v b c == div1000 (overlap_ms v b c))%Q /\
  (_overlap_seconds v a c
   == div1000 (overlap_ms v a b + overlap_ms v b c))%Q.
Proof.
  intros Hab Hbc. split; [|split]; try apply overlap_positive.
  rewrite overlap_positive. unfold overlap_ms.
  assert (E : Z.max 0 (Z.min (end_ms v) b - Z.max (start_ms v) a)
              + Z.max 0 (Z.min (end_ms v) c - Z.max (start_ms v) b)
              = Z.max 0 (Z.min (end_ms v) c - Z.max (start_ms v) a))
    by lia.
  now rewrite E.
Qed.

(** * The per-day breakdown of the dashboard *)

Section DaysFacts.
Variable local_midnight_ms : Z -> Z.
Hypothesis midnight_mono :
  forall d, local_midnight_ms d <= local_midnight_ms (d + 1).

Lemma midnight_mono_n (n : nat) (d : Z) :
  local_midnight_ms d <= local_midnight_ms (d + Z.of_nat n).
Proof.
  induction n as [|n IH].
  - replace (d + Z.of_nat 0) with d by lia. lia.
  - replace (d + Z.of_nat (S n)) with (d + Z.of_nat n + 1) by lia.
    pose proof (midnight_mono (d + Z.of_nat n)). lia.
Qed.

Lemma overlap_seconds_ms (v : Visit) (a b : Z) :
  (_overlap_seconds v a b == div1000 (overlap_ms v a b))%Q.
Proof. apply overlap_positive. Qed.

(** The day overlaps of one visit telescope. *)
Lemma day_loop_overlap (v : Visit) (n : nat) (cur : Z) :
  days_overlap_ms v (day_loop local_midnight_ms n cur)
  = overlap_ms v (local_midnight_ms cur)
      (local_midnight_ms (cur + Z.of_nat n)).
Proof.
  revert cur. induction n as [|n IH]; intro cur.
  - simpl. replace (cur + 0) with cur by lia. unfold overlap_ms. lia.
  - cbn [day_loop days_overlap_ms fold_right fst snd].
    fold (days_overlap_ms v (day_loop local_midnight_ms n (cur + 1))).
    rewrite IH.
    replace (cur + 1 + Z.of_nat n) with (cur + Z.of_nat (S n)) by lia.
    pose proof (midnight_mono cur).
    pose proof (midnight_mono_n n (cur + 1)).
    replace (cur + 1 + Z.of_nat n) with (cur + Z.of_nat (S n)) in * by lia.
    unfold overlap_ms. lia.
Qed.

Lemma dict_add_keys (d : Z) (ds : float) (dict : list (Z * float)) :
  In d (map fst dict) ->
  (0 <= ds)%Q ->
  Forall (fun kv : Z * float => (0 <= snd kv)%Q) dict ->
  exists dict',
    dict_add d ds dict = Some dict' /\
    map fst dict' = map fst dict /\
    Forall (fun kv : Z * float => (0 <= snd kv)%Q) dict'.
Proof.
  intros Hin Hds. induction dict as [|[k x] dict IH]; simpl in *; [tauto|].
  intro Hpos. inversion Hpos as [|? ? Hx Hrest]; subst. simpl in Hx.
  destruct (k =? d) eqn:E.
  - eexists. split; [reflexivity|]. split; [reflexivity|].
    constructor; [|exact Hrest]. simpl.
    apply (Qplus_le_compat 0 x 0 ds Hx) in Hds.
    now rewrite Qplus_0_l in Hds.
  - apply Z.eqb_neq in E. destruct Hin as [Hk|Hin]; [congruence|].
    destruct (IH Hin Hrest) as (dict' & -> & Hkeys & Hpos'). simpl.
    eexists. split; [reflexivity|]. split; [simpl; congruence|].
    constructor; assumption.
Qed.

Lemma add_day_overlaps_keys (v : Visit) (days : list (Z * Z * Z))
    (dict : list (Z * float)) :
  incl (map (fun day => fst (fst day)) days) (map fst dict) ->
  Forall (fun kv : Z * float => (0 <= snd kv)%Q) dict ->
  exists dict',
    add_day_overlaps v days dict = Some dict' /\
    map fst dict' = map fst dict /\
    Forall (fun kv : Z * float => (0 <= snd kv)%Q) dict'.
Proof.
  unfold add_day_overlaps. revert dict.
  induction days as [|[[d a] b] days IH]; intros dict Hincl Hpos.
  - simpl. exists dict. repeat split; auto.
  - cbn [fold_left bind].
    assert (Hd : In d (map fst dict)) by (apply Hincl; now left).
    assert (Hrest : incl (map (fun day => fst (fst day)) days)
                      (map fst dict))
      by (intros x Hx; apply Hincl; now right).
    destruct (Qlt_bool 0 (_overlap_seconds v a b)) eqn:E.
    + destruct (dict_add_keys d (_overlap_seconds v a b) dict Hd)
        as (dict1 & -> & Hkeys & Hpos1);
        [apply py_max_lower | exact Hpos |].
      destruct (IH dict1) as (dict' & Hrun & Hkeys' & Hpos');
        [now rewrite Hkeys | exact Hpos1 |].
      exists dict'. split; [exact Hrun|]. split; [congruence | exact Hpos'].
    + destruct (IH dict Hrest Hpos) as (dict' & Hrun & Hkeys' & Hpos').
      exists dict'. split; [exact Hrun|]. split; assumption.
Qed.

(** X15. The per-day breakdown of the dashboard.  For a range of days
    [start_d <= end_d], with local midnights that do not go back in time from
    a day to the next: the loop never misses a key, the dict keeps one entry
    per day of the range, in order, and no entry is negative; and the days
    tile the range, in that the seconds a visit has in the whole range are
    the quotient by 1000 of its milliseconds in the days of the range, added
    up. *)
Theorem main_day_seconds_days (visits : list Visit) (start_d end_d : Z) :
  start_d <= end_d ->
  (exists day_seconds,
      main_day_seconds local_midnight_ms visits start_d end_d
      = Some day_seconds /\
      map fst day_seconds
      = map (fun i => start_d + Z.of_nat i)
          (seq 0 (Z.to_nat (end_d - start_d + 1))) /\
      Forall (fun kv : Z * float => (0 <= snd kv)%Q) day_seconds) /\
  (forall v,
      (_overlap_seconds v
         (fst (_range_to_epoch_ms local_midnight_ms start_d end_d))
         (snd (_range_to_epoch_ms local_midnight_ms start_d end_d))
       == div1000
            (days_overlap_ms v
               (_day_ranges local_midnight_ms start_d end_d)))%Q).
Proof.
  intro Hle. split.
  - unfold main_day_seconds, _range_to_epoch_ms, _day_ranges.
    set (n := Z.to_nat (end_d - start_d + 1)).
    set (days := day_loop local_midnight_ms n start_d).
    set (a := local_midnight_ms start_d).
    set (b := local_midnight_ms (end_d + 1)).
    assert (Hdates : forall k cur,
               map (fun day => fst (fst day))
                 (day_loop local_midnight_ms k cur)
               = map (fun i => cur + Z.of_nat i) (seq 0 k)).
    { induction k as [|k IH]; intro cur; [reflexivity|].
      cbn [day_loop map seq fst]. f_equal; [lia|].
      rewrite IH, <- seq_shift, map_map.
      apply map_ext. intro i. lia. }
    (* the loop over the visits, from any dict with the keys of the days *)
    assert (Hloop : forall dict : list (Z * float),
               map fst dict = map (fun day => fst (fst day)) days ->
               Forall (fun kv : Z * float => (0 <= snd kv)%Q) dict ->
               exists dict',
                 fold_left
                   (fun acc v =>
                      dict <- acc ;;
                      let s := _overlap_seconds v a b in
                      if Qle_bool s 0 then Some dict
                      else add_day_overlaps v days dict)
                   visits (Some dict) = Some dict' /\
                 map fst dict' = map fst dict /\
                 Forall (fun kv : Z * float => (0 <= snd kv)%Q) dict').
    { induction visits as [|v visits IH]; intros dict Hkeys Hpos.
      - exists dict. simpl. repeat split; auto.
      - cbn [fold_left bind].
        destruct (Qle_bool (_overlap_seconds v a b) 0).
        + apply IH; assumption.
        + destruct (add_day_overlaps_keys v days dict)
            as (d1 & Hd1 & Hk1 & Hp1);
            [rewrite Hkeys; apply incl_refl | exact Hpos |].
          rewrite Hd1.
          destruct (IH d1) as (dict' & Hrun & Hk' & Hp');
            [congruence | exact Hp1 |].
          exists dict'. split; [exact Hrun|]. split; [congruence|exact Hp']. }
    destruct (Hloop (map (fun day => (fst (fst day), 0%Q)) days))
      as (dict' & Hrun & Hkeys & Hpos).
    { rewrite map_map. reflexivity. }
    { apply Forall_forall. intros kv Hkv. apply in_map_iff in Hkv.
      destruct Hkv as (day & <- & _). simpl. apply Qle_refl. }
    exists dict'. split; [exact Hrun|]. split; [|exact Hpos].
    rewrite Hkeys, map_map. cbn [fst]. apply Hdates.
  - intro v. unfold _range_to_epoch_ms, _day_ranges. cbn [fst snd].
    rewrite day_loop_overlap, overlap_seconds_ms.
    replace (start_d + Z.of_nat (Z.to_nat (end_d - start_d + 1)))
      with (end_d + 1) by lia.
    reflexivity.
Qed.

End DaysFacts.

(** * Durations as text *)

Lemma py_round_near (x : float) :
  (inject_Z (py_round x) - (1 # 2) <= x)%Q /\
  (x <= inject_Z (py_round x) + (1 # 2))%Q.
Proof.
  unfold py_round. cbv zeta.
  pose proof (Qfloor_le x) as Hlo. pose proof (Qlt_floor x) as Hhi.
  rewrite inject_Z_plus in Hhi. change (inject_Z 1) with 1%Q in Hhi.
  unfold float in *.
  destruct (Qlt_bool (x - inject_Z (Qfloor x)) (1 # 2)) eqn:E1.
  - apply Qlt_bool_true in E1. split; lra.
  - apply Qlt_bool_false in E1.
    assert (Hup : (inject_Z (Qfloor x + 1) == inject_Z (Qfloor x) + 1)%Q)
      by (rewrite inject_Z_plus; reflexivity).
    destruct (Qlt_bool (1 # 2) (x - inject_Z (Qfloor x))) eqn:E2.
    + rewrite Hup. split; lra.
    + apply Qlt_bool_false in E2.
      destruct (Z.even (Qfloor x)); [|rewrite Hup]; split; lra.
Qed.

Lemma py_round_comp (x y : float) : (x == y)%Q -> py_round x = py_round y.
Proof.
  intro H. unfold py_round, Qlt_bool. cbv zeta.
  rewrite (Qfloor_comp x y H).
  assert (Hr : (x - inject_Z (Qfloor y) == y - inject_Z (Qfloor y))%Q)
    by (rewrite H; reflexivity).
  rewrite (Qleb_comp _ _ (Qeq_refl (1 # 2)) _ _ Hr).
  rewrite (Qleb_comp _ _ Hr _ _ (Qeq_refl (1 # 2))).
  reflexivity.
Qed.

Lemma string_length_append (s1 s2 : string) :
  String.length (s1 ++ s2) = (String.length s1 + String.length s2)%nat.
Proof. induction s1 as [|c s1 IH]; simpl; [reflexivity | now rewrite IH]. Qed.

Lemma fmt_02d_length (n : Z) :
  0 <= n < 100 -> String.length (fmt_02d n) = 2%nat.
Proof.
  intro Hn.
  assert (Hall : forallb
                   (fun k => Nat.eqb (String.length (fmt_02d (Z.of_nat k))) 2)
                   (seq 0 100) = true) by (vm_compute; reflexivity).
  rewrite forallb_forall in Hall.
  specialize (Hall (Z.to_nat n)). rewrite Z2Nat.id in Hall by lia.
  apply Nat.eqb_eq, Hall. apply in_seq. lia.
Qed.

(** X16. The text of [_format_hhmmss] is made of three fields whose values
    recombine to the number of seconds rounded to the nearest integer, which
    is within half a second of the input; the minutes and the seconds are
    between 0 and 59 whatever the sign of the input; and for a rounded value
    between 0 and 359 999 (under 100 hours) the text has exactly 8
    characters. *)
Theorem _format_hhmmss_fields (seconds : float) :
  exists h m sec,
    _format_hhmmss seconds
    = (fmt_02d h ++ ":" ++ fmt_02d m ++ ":" ++ fmt_02d sec)%string /\
    0 <= m < 60 /\ 0 <= sec < 60 /\
    h * 3600 + m * 60 + sec = py_round seconds /\
    (inject_Z (h * 3600 + m * 60 + sec) - (1 # 2) <= seconds
     <= inject_Z (h * 3600 + m * 60 + sec) + (1 # 2))%Q /\
    (0 <= py_round seconds < 360000 ->
     String.length (_format_hhmmss seconds) = 8%nat).
Proof.
  set (s := py_round seconds).
  exists (s / 3600), ((s mod 3600) / 60), (s mod 60).
  assert (Hm : 0 <= s mod 3600 < 3600) by (apply Z.mod_pos_bound; lia).
  assert (Hs : 0 <= s mod 60 < 60) by (apply Z.mod_pos_bound; lia).
  assert (Hm60 : 0 <= (s mod 3600) / 60 < 60).
  { split; [apply Z.div_pos; lia|].
    apply Z.div_lt_upper_bound; lia. }
  assert (Hmod : (s mod 3600) mod 60 = s mod 60).
  { apply Z.mod_mod_divide. exists 60. reflexivity. }
  assert (Hsum : s / 3600 * 3600 + (s mod 3600) / 60 * 60 + s mod 60 = s).
  { pose proof (Z.div_mod s 3600 ltac:(lia)).
    pose proof (Z.div_mod (s mod 3600) 60 ltac:(lia)). lia. }
  split; [reflexivity|]. split; [exact Hm60|]. split; [exact Hs|].
  split; [exact Hsum|]. split.
  - rewrite Hsum. apply py_round_near.
  - intros Hrange. fold s in Hrange. unfold _format_hhmmss. fold s. cbv zeta.
    rewrite !string_length_append.
    assert (Hh : 0 <= s / 3600 < 100).
    { split; [apply Z.div_pos; lia|].
      apply Z.div_lt_upper_bound; lia. }
    rewrite !fmt_02d_length by lia. reflexivity.
Qed.

(** X17. The dashboard's [_hhmmss] clamps: a duration of 0 s or less reads
    "00:00:00", and a duration that is not negative reads as with
    [_format_hhmmss]. *)
Theorem _hhmmss_clamps (seconds : float) :
  ((seconds <= 0)%Q -> _hhmmss seconds = "00:00:00"%string) /\
  ((0 <= seconds)%Q -> _hhmmss seconds = _format_hhmmss seconds).
Proof.
  split; intro H.
  - unfold _hhmmss. rewrite (py_max_nonpositive _ H).
    vm_compute. reflexivity.
  - unfold _hhmmss, _format_hhmmss.
    assert (E : py_round (py_max 0 seconds) = py_round seconds).
    { apply py_round_comp. rewrite py_max_is_max. now apply Q.max_r. }
    now rewrite E.
Qed.

(** * Sampling-interval statistics *)

Lemma insert_float_perm (x : float) (l : list float) :
  Permutation (insert_float x l) (x :: l).
Proof.
  induction l as [|y l IH]; simpl; [apply Permutation_refl|].
  destruct (Qle_bool x y); [apply Permutation_refl|].
  eapply Permutation_trans; [apply perm_skip, IH | apply perm_swap].
Qed.

Lemma sorted_floats_perm (l : list float) : Permutation (sorted_floats l) l.
Proof.
  induction l as [|x l IH]; simpl; [constructor|].
  eapply Permutation_trans; [apply insert_float_perm | apply perm_skip, IH].
Qed.

Lemma insert_float_sorted (x : float) (l : list float) :
  StronglySorted Qle l -> StronglySorted Qle (insert_float x l).
Proof.
  induction 1 as [|y l Hs IH Hy]; simpl; [repeat constructor|].
  destruct (Qle_bool x y) eqn:E.
  - apply Qle_bool_iff in E. constructor; [constructor; assumption|].
    constructor; [exact E|].
    eapply Forall_impl; [|exact Hy]. intros z Hz. now apply Qle_trans with y.
  - apply Qle_bool_false in E. constructor; [exact IH|].
    eapply Permutation_Forall; [apply Permutation_sym, insert_float_perm|].
    constructor; [now apply Qlt_le_weak | exact Hy].
Qed.

Lemma sorted_floats_sorted (l : list float) :
  StronglySorted Qle (sorted_floats l).
Proof.
  induction l as [|x l IH]; simpl; [constructor|].
  now apply insert_float_sorted.
Qed.

Lemma sorted_nth_le (l : list float) :
  StronglySorted Qle l ->
  forall i j, (i <= j)%nat -> (j < List.length l)%nat ->
              (nth i l 0 <= nth j l 0)%Q.
Proof.
  induction 1 as [|x l Hs IH Hx]; intros i j Hij Hj; simpl in Hj; [lia|].
  destruct i as [|i], j as [|j]; simpl; try lia.
  - apply Qle_refl.
  - rewrite Forall_forall in Hx. apply Hx, nth_In. lia.
  - apply IH; lia.
Qed.

Lemma consecutive_deltas_nonneg (ms : list Z) :
  Forall (fun x => (0 <= x)%Q) (consecutive_deltas ms).
Proof.
  induction ms as [|a [|b ms] IH]; simpl; try constructor.
  simpl in IH. destruct (b >=? a) eqn:E; [|exact IH].
  constructor; [|exact IH]. apply div1000_nonneg.
  rewrite Z.geb_leb in E. apply Z.leb_le in E. lia.
Qed.

Lemma consecutive_deltas_ascending (ms : list Z) :
  Sorted Z.le ms ->
  List.length (consecutive_deltas ms) = pred (List.length ms).
Proof.
  induction ms as [|a [|b ms] IH]; intro Hs; try reflexivity.
  inversion Hs as [|? ? Hs' Hhd]; subst. inversion Hhd as [|? ? Hab]; subst.
  specialize (IH Hs').
  change (consecutive_deltas (a :: b :: ms))
    with (if b >=? a then div1000 (b - a) :: consecutive_deltas (b :: ms)
          else consecutive_deltas (b :: ms)).
  replace (b >=? a) with true
    by (symmetry; rewrite Z.geb_leb; now apply Z.leb_le).
  cbn [List.length]. rewrite IH. reflexivity.
Qed.

Lemma consecutive_deltas_nil (ms : list Z) :
  consecutive_deltas ms = [] -> Sorted (fun a b => b < a) ms.
Proof.
  induction ms as [|a [|b ms] IH]; intro H;
    [constructor | repeat constructor |].
  change (consecutive_deltas (a :: b :: ms))
    with (if b >=? a then div1000 (b - a) :: consecutive_deltas (b :: ms)
          else consecutive_deltas (b :: ms)) in H.
  destruct (b >=? a) eqn:E; [discriminate|].
  constructor; [now apply IH|]. constructor.
  rewrite Z.geb_leb in E. now apply Z.leb_gt in E.
Qed.

(** X18. [delta_stats] returns nothing for fewer than two timestamps; for
    at least two timestamps in ascending order it returns statistics over
    exactly [len - 1] intervals; and whenever it returns nothing on two or
    more timestamps, each timestamp is strictly smaller than the one before
    it. *)
Theorem delta_stats_defined (ms : list Z) :
  ((List.length ms < 2)%nat -> delta_stats ms = None) /\
  ((2 <= List.length ms)%nat -> Sorted Z.le ms ->
   exists r, delta_stats ms = Some r /\
             count r = Z.of_nat (List.length ms) - 1) /\
  (delta_stats ms = None ->
   (List.length ms < 2)%nat \/ Sorted (fun a b => b < a) ms).
Proof.
  unfold delta_stats. cbv zeta. split; [|split].
  - intro H. apply Nat.ltb_lt in H. now rewrite H.
  - intros Hlen Hs.
    replace (List.length ms <? 2)%nat with false
      by (symmetry; apply Nat.ltb_ge; lia).
    pose proof (consecutive_deltas_ascending ms Hs) as Hn.
    destruct (consecutive_deltas ms) as [|d ds] eqn:E.
    + simpl in Hn. lia.
    + eexists. split; [reflexivity|]. cbn [count].
      rewrite (Permutation_length (sorted_floats_perm (d :: ds))), Hn. lia.
  - destruct (List.length ms <? 2)%nat eqn:Hlen.
    + intros _. left. now apply Nat.ltb_lt.
    + destruct (consecutive_deltas ms) eqn:E; [|discriminate].
      intros _. right. now apply consecutive_deltas_nil.
Qed.

Lemma p95_index_bounds (n : Z) :
  1 <= n ->
  0 <= Qfloor ((95 # 100) * inject_Z (n - 1)) <= n - 1 /\
  (3 <= n -> n / 2 <= Qfloor ((95 # 100) * inject_Z (n - 1))).
Proof.
  intro Hn. repeat split.
  - change 0 with (Qfloor (inject_Z 0)) at 1. apply Qfloor_resp_le.
    unfold Qle, Qmult, inject_Z; cbn [Qnum Qden]. lia.
  - rewrite <- (Qfloor_Z (n - 1)) at 2. apply Qfloor_resp_le.
    unfold Qle, Qmult, inject_Z; cbn [Qnum Qden]. lia.
  - intro H3. rewrite (Zdiv_Qdiv n 2). apply Qfloor_resp_le.
    unfold Qle, Qdiv, Qmult, Qinv, inject_Z; cbn [Qnum Qden]. lia.
Qed.

(** X19. The statistics of [delta_stats] are in order: the minimum is not
    negative, the median and the 95th percentile lie between the minimum and
    the maximum, and from three intervals on the median is at most the 95th
    percentile. *)
Theorem delta_stats_ordered (ms : list Z) (r : DeltaStats) :
  delta_stats ms = Some r ->
  1 <= count r /\
  (0 <= min_s r)%Q /\
  (min_s r <= median_s r <= max_s r)%Q /\
  (min_s r <= p95_s r <= max_s r)%Q /\
  (3 <= count r -> (median_s r <= p95_s r)%Q).
Proof.
  unfold delta_stats. cbv zeta.
  destruct (List.length ms <? 2)%nat; [discriminate|].
  pose proof (consecutive_deltas_nonneg ms) as Hpos.
  destruct (consecutive_deltas ms) as [|d ds]; [discriminate|].
  set (l := sorted_floats (d :: ds)) in *.
  pose proof (sorted_floats_sorted (d :: ds)) as Hs. fold l in Hs.
  pose proof (sorted_floats_perm (d :: ds)) as Hp. fold l in Hp.
  assert (Hlen : (1 <= List.length l)%nat).
  { rewrite (Permutation_length Hp). simpl. lia. }
  set (n := Z.of_nat (List.length l)) in *.
  assert (Hn : 1 <= n) by (unfold n; lia).
  assert (Hnth : forall i j, 0 <= i -> i <= j -> j <= n - 1 ->
                             (at_index l i <= at_index l j)%Q).
  { intros i j Hi Hij Hj. unfold at_index.
    apply (sorted_nth_le l Hs); unfold n in *; lia. }
  assert (Hmin : (0 <= at_index l 0)%Q).
  { unfold at_index.
    assert (Hl : Forall (fun x => (0 <= x)%Q) l)
      by (eapply Permutation_Forall; [apply Permutation_sym, Hp|exact Hpos]).
    rewrite Forall_forall in Hl. apply Hl, nth_In. simpl. lia. }
  destruct (p95_index_bounds n Hn) as [[Hk0 Hk1] Hk2].
  set (k := Qfloor ((95 # 100) * inject_Z (n - 1))) in *.
  pose proof (Z.div_mod n 2 ltac:(lia)) as Hdm.
  pose proof (Z.mod_pos_bound n 2 ltac:(lia)) as Hmb.
  intros [= <-]. cbn [count min_s median_s p95_s max_s].
  split; [exact Hn|]. split; [exact Hmin|].
  destruct (n mod 2 =? 1) eqn:Hodd.
  - apply Z.eqb_eq in Hodd.
    split; [split; apply Hnth; lia|].
    split; [split; apply Hnth; lia|].
    intro H3. specialize (Hk2 H3). apply Hnth; lia.
  - apply Z.eqb_neq in Hodd.
    assert (Ha : (at_index l 0 <= at_index l (n / 2 - 1))%Q)
      by (apply Hnth; lia).
    assert (Hb : (at_index l (n / 2 - 1) <= at_index l (n / 2))%Q)
      by (apply Hnth; lia).
    assert (Hc : (at_index l (n / 2) <= at_index l (n - 1))%Q)
      by (apply Hnth; lia).
    split; [split; unfold float in *; lra|].
    split; [split; apply Hnth; lia|].
    intro H3. specialize (Hk2 H3).
    assert (Hd : (at_index l (n / 2) <= at_index l k)%Q)
      by (apply Hnth; lia).
    unfold float in *. lra.
Qed.

(** * Inspection of the loaded samples *)

Lemma py_min_list_fold (xs : list float) (m0 : float) :
  let m := fold_left (fun m y => if Qlt_bool y m then y else m) xs m0 in
  (m = m0 \/ In m xs) /\ (m <= m0)%Q /\ Forall (fun y => (m <= y)%Q) xs.
Proof.
  revert m0. induction xs as [|x xs IH]; intro m0; cbn zeta; simpl.
  - repeat split; auto. apply Qle_refl.
  - specialize (IH (if Qlt_bool x m0 then x else m0)). cbn zeta in IH.
    destruct IH as (Hin & Hle & Hall).
    destruct (Qlt_bool x m0) eqn:E.
    + apply Qlt_bool_true in E. repeat split.
      * destruct Hin as [->|Hin]; auto.
      * apply Qle_trans with x; [exact Hle | now apply Qlt_le_weak].
      * constructor; [exact Hle | exact Hall].
    + apply Qlt_bool_false in E. repeat split.
      * destruct Hin as [->|Hin]; auto.
      * exact Hle.
      * constructor; [now apply Qle_trans with m0 | exact Hall].
Qed.

Lemma py_max_list_fold (xs : list float) (m0 : float) :
  let m := fold_left (fun m y => if Qlt_bool m y then y else m) xs m0 in
  (m = m0 \/ In m xs) /\ (m0 <= m)%Q /\ Forall (fun y => (y <= m)%Q) xs.
Proof.
  revert m0. induction xs as [|x xs IH]; intro m0; cbn zeta; simpl.
  - repeat split; auto. apply Qle_refl.
  - specialize (IH (if Qlt_bool m0 x then x else m0)). cbn zeta in IH.
    destruct IH as (Hin & Hle & Hall).
    destruct (Qlt_bool m0 x) eqn:E.
    + apply Qlt_bool_true in E. repeat split.
      * destruct Hin as [->|Hin]; auto.
      * apply Qle_trans with x; [now apply Qlt_le_weak | exact Hle].
      * constructor; [exact Hle | exact Hall].
    + apply Qlt_bool_false in E. repeat split.
      * destruct Hin as [->|Hin]; auto.
      * exact Hle.
      * constructor; [now apply Qle_trans with m0 | exact Hall].
Qed.

Lemma py_min_max_list (f : TrackPoint -> float) (p0 : TrackPoint)
    (rest : list TrackPoint) :
  In (py_min_list (f p0) (map f rest)) (map f (p0 :: rest)) /\
  In (py_max_list (f p0) (map f rest)) (map f (p0 :: rest)) /\
  Forall (fun pt => (py_min_list (f p0) (map f rest) <= f pt
                     <= py_max_list (f p0) (map f rest))%Q) (p0 :: rest).
Proof.
  unfold py_min_list, py_max_list.
  destruct (py_min_list_fold (map f rest) (f p0)) as (Hi1 & Hl1 & Ha1).
  destruct (py_max_list_fold (map f rest) (f p0)) as (Hi2 & Hl2 & Ha2).
  cbn zeta in *. split; [|split].
  - simpl. destruct Hi1 as [->|H]; auto.
  - simpl. destruct Hi2 as [->|H]; auto.
  - constructor; [split; assumption|].
    rewrite Forall_forall in *. intros pt Hpt.
    split; [apply Ha1 | apply Ha2]; now apply in_map.
Qed.

Lemma sorted_times_last_max (l : list Z) :
  StronglySorted (key_le (fun t : Z => t)) l ->
  Forall (fun t => t <= last l 0) l.
Proof.
  induction 1 as [|b l Hs IH Hb]; [constructor|].
  destruct l as [|c l]; [repeat constructor; simpl; lia|].
  change (last (b :: c :: l) 0) with (last (c :: l) 0).
  constructor; [|exact IH].
  inversion Hb as [|? ? Hbc _]; subst. inversion IH as [|? ? Hc _]; subst.
  unfold key_le in Hbc. lia.
Qed.

Lemma sorted_times_ends (l : list Z) :
  l <> [] ->
  StronglySorted (key_le (fun t : Z => t)) l ->
  In (nth 0 l 0) l /\ In (last l 0) l /\
  Forall (fun t => nth 0 l 0 <= t <= last l 0) l.
Proof.
  intros Hne Hs. destruct l as [|a l]; [congruence|]. clear Hne.
  split; [now left|]. split; [apply last_cons_In|].
  pose proof (sorted_times_last_max (a :: l) Hs) as Hmax.
  inversion Hs as [|? ? _ Hmin]; subst.
  rewrite Forall_forall in *. intros t [<-|Ht]; cbn [nth].
  - split; [lia|]. apply Hmax. now left.
  - split; [exact (Hmin t Ht)|]. apply Hmax. now right.
Qed.

(** X20. [inspect_points] on a non-empty list reports the number of samples
    and bounds that are attained: the smallest and the greatest timestamp,
    latitude and longitude of the samples.  With two samples or more the
    interval statistics are present and cover [len - 1] intervals, since the
    timestamps are sorted first. *)
Theorem inspect_points_bounds (p0 : TrackPoint) (rest : list TrackPoint) :
  exists lo hi la lb oa ob,
    rows_total (inspect_points (p0 :: rest))
    = Z.of_nat (List.length (p0 :: rest)) /\
    min_time_ms (inspect_points (p0 :: rest)) = Some lo /\
    max_time_ms (inspect_points (p0 :: rest)) = Some hi /\
    min_lat (inspect_points (p0 :: rest)) = Some la /\
    max_lat (inspect_points (p0 :: rest)) = Some lb /\
    min_lon (inspect_points (p0 :: rest)) = Some oa /\
    max_lon (inspect_points (p0 :: rest)) = Some ob /\
    In lo (map geo_time_ms (p0 :: rest)) /\
    In hi (map geo_time_ms (p0 :: rest)) /\
    In la (map latitude (p0 :: rest)) /\
    In lb (map latitude (p0 :: rest)) /\
    In oa (map longitude (p0 :: rest)) /\
    In ob (map longitude (p0 :: rest)) /\
    Forall (fun pt => lo <= geo_time_ms pt <= hi /\
                      (la <= latitude pt <= lb)%Q /\
                      (oa <= longitude pt <= ob)%Q) (p0 :: rest) /\
    (rest <> [] ->
     exists r, delta (inspect_points (p0 :: rest)) = Some r /\
               count r = Z.of_nat (List.length rest)).
Proof.
  set (pts := p0 :: rest).
  set (times := sorted (fun t : Z => t) (map geo_time_ms pts)).
  pose proof (sorted_sorted (fun t : Z => t) (map geo_time_ms pts)) as Hs.
  pose proof (sorted_perm (fun t : Z => t) (map geo_time_ms pts)) as Hp.
  fold times in Hs, Hp.
  assert (Hne : times <> []).
  { intro E. rewrite E in Hp. apply Permutation_nil in Hp. discriminate. }
  destruct (sorted_times_ends times Hne Hs) as (Hlo & Hhi & Hall).
  destruct (py_min_max_list latitude p0 rest) as (Hla & Hlb & Hlat).
  destruct (py_min_max_list longitude p0 rest) as (Hoa & Hob & Hlon).
  exists (nth 0 times 0), (last times 0).
  exists (py_min_list (latitude p0) (map latitude rest)),
         (py_max_list (latitude p0) (map latitude rest)).
  exists (py_min_list (longitude p0) (map longitude rest)),
         (py_max_list (longitude p0) (map longitude rest)).
  do 7 (split; [reflexivity|]).
  split; [eapply Permutation_in; [exact Hp | exact Hlo]|].
  split; [eapply Permutation_in; [exact Hp | exact Hhi]|].
  do 4 (split; [assumption|]).
  split.
  - rewrite Forall_forall in *. intros pt Hpt.
    split; [|split; [now apply Hlat | now apply Hlon]].
    apply Hall. eapply Permutation_in; [apply Permutation_sym, Hp|].
    now apply in_map.
  - intro Hrest. unfold inspect_points. fold pts. cbn [delta]. fold times.
    assert (Hlen : List.length times = S (List.length rest)).
    { rewrite (Permutation_length Hp). unfold pts. simpl.
      now rewrite length_map. }
    assert (Hsorted : Sorted Z.le times)
      by (apply StronglySorted_Sorted; exact Hs).
    pose proof (consecutive_deltas_ascending times Hsorted) as Hn.
    unfold delta_stats. cbv zeta.
    replace (List.length times <? 2)%nat with false.
    2:{ symmetry. apply Nat.ltb_ge. rewrite Hlen.
        destruct rest; [congruence | simpl; lia]. }
    destruct (consecutive_deltas times) as [|d ds] eqn:E.
    + rewrite Hlen in Hn. simpl in Hn. destruct rest; [congruence|].
      simpl in Hn. discriminate.
    + eexists. split; [reflexivity|]. cbn [count].
      rewrite (Permutation_length (sorted_floats_perm (d :: ds))), Hn, Hlen.
      simpl. reflexivity.
Qed.

Lemma count_adjacent_equal_nonneg (l : list Z) :
  0 <= count_adjacent_equal l.
Proof.
  induction l as [|a [|b l] IH]; simpl; try lia.
  simpl in IH. destruct (b =? a); lia.
Qed.

Lemma count_adjacent_equal_zero (l : list Z) :
  StronglySorted (key_le (fun t : Z => t)) l ->
  (count_adjacent_equal l = 0 <-> NoDup l).
Proof.
  induction 1 as [|a l Hs IH Ha]; [split; [constructor | reflexivity]|].
  destruct l as [|b l]; [split; [repeat constructor; auto | reflexivity]|].
  change (count_adjacent_equal (a :: b :: l))
    with ((if b =? a then 1 else 0) + count_adjacent_equal (b :: l)).
  pose proof (count_adjacent_equal_nonneg (b :: l)) as Hnn.
  split.
  - intro H0. destruct (b =? a) eqn:E; [lia|]. apply Z.eqb_neq in E.
    constructor; [|apply IH; lia].
    inversion Ha as [|? ? Hab _]; subst. unfold key_le in Hab.
    inversion Hs as [|? ? _ Hb]; subst.
    intros [->|Hin]; [congruence|].
    rewrite Forall_forall in Hb. specialize (Hb a Hin). unfold key_le in Hb.
    lia.
  - intro Hnd. inversion Hnd as [|? ? Hnotin Hnd']; subst.
    replace (b =? a) with false.
    + apply IH in Hnd'. lia.
    + symmetry. apply Z.eqb_neq. intros ->. apply Hnotin. now left.
Qed.

(** X21. [inspect_points] reports no duplicate timestamp exactly when the
    timestamps of the samples are pairwise distinct. *)
Theorem inspect_points_no_duplicates (points : list TrackPoint) :
  duplicates_geo_time (inspect_points points) = 0
  <-> NoDup (map geo_time_ms points).
Proof.
  destruct points as [|p0 rest].
  - simpl. split; [constructor | reflexivity].
  - unfold inspect_points. cbn [duplicates_geo_time].
    set (l := map geo_time_ms (p0 :: rest)).
    rewrite (count_adjacent_equal_zero _ (sorted_sorted (fun t => t) l)).
    split; intro H.
    + eapply Permutation_NoDup; [apply sorted_perm | exact H].
    + eapply Permutation_NoDup; [apply Permutation_sym, sorted_perm|].
      exact H.
Qed.

(** X22. A file for which [inspect_points] reports no duplicate timestamp
    can be presented to [find_visits] in any order: every permutation of the
    samples gives the same result. *)
Theorem no_duplicates_order_free
    (haversine_m : float -> float -> float -> float -> float)
    (dt_from_epoch_ms : Z -> string -> option datetime)
    (pts pts' : list TrackPoint) (g : GeofenceCircle) (p : VisitParams) :
  duplicates_geo_time (inspect_points pts) = 0 ->
  Permutation pts pts' ->
  find_visits haversine_m dt_from_epoch_ms pts' g p
  = find_visits haversine_m dt_from_epoch_ms pts g p.
Proof.
  intros Hdup Hperm.
  assert (Hnd : NoDup (map geo_time_ms pts)).
  { destruct pts as [|p0 rest]; [constructor|].
    unfold inspect_points in Hdup. cbn [duplicates_geo_time] in Hdup.
    set (l := map geo_time_ms (p0 :: rest)) in *.
    apply (count_adjacent_equal_zero _ (sorted_sorted (fun t => t) l))
      in Hdup.
    eapply Permutation_NoDup; [apply sorted_perm | exact Hdup]. }
  unfold find_visits.
  now rewrite (sorted_permutation_invariant geo_time_ms pts pts' Hnd Hperm).
Qed.

(** * Worked runs for the further properties *)

Lemma gap_run :
  find_visits haversine_at utc_datetime gap_points fence params_gap
  = Some gap_visits.
Proof. vm_compute. reflexivity. Defined.

Lemma find_visits_fewer_than_two_witness :
  find_visits haversine_at utc_datetime [sample_in 5000] fence
    (default_params "no/such_zone")
  = Some [].
Proof.
  apply (proj2 (find_visits_fewer_than_two haversine_at utc_datetime fence
                  (default_params "no/such_zone"))).
  reflexivity.
Defined.

Lemma find_visits_all_outside_witness :
  find_visits haversine_at utc_datetime
    [sample_out 0; sample_out 900000; sample_out 60000] fence
    (default_params "UTC")
  = Some [].
Proof.
  apply (find_visits_all_outside haversine_at utc_datetime).
  repeat (constructor; [reflexivity|]). constructor.
Defined.

Lemma find_visits_within_span_witness :
  Forall (fun v => 1000 <= start_ms v /\ end_ms v <= 100060000) gap_visits.
Proof.
  apply (proj2 (find_visits_within_span haversine_at utc_datetime
                  gap_points fence params_gap gap_visits gap_run)).
  repeat (constructor; [simpl; lia|]). constructor.
Defined.

Lemma find_visits_sample_counts_witness :
  Forall (fun v => 1 <= points v) gap_visits /\
  sum_points gap_visits <= count_inside haversine_at fence gap_points /\
  Z.of_nat (List.length gap_visits)
  <= count_inside haversine_at fence gap_points.
Proof.
  exact (find_visits_sample_counts haversine_at utc_datetime
           gap_points fence params_gap gap_visits gap_run).
Defined.

Lemma find_visits_method_tags_witness :
  Forall (fun v => In (method v) closing_tags) (removelast gap_visits) /\
  Forall (fun v => In (method v) (closing_tags ++ opening_tags)) gap_visits.
Proof.
  exact (find_visits_method_tags haversine_at utc_datetime
           gap_points fence params_gap gap_visits gap_run).
Defined.

Lemma find_visits_id_bounds_witness :
  Forall (fun v => 1 <= visit_id v <= 4) gap_visits.
Proof.
  exact (find_visits_id_bounds haversine_at utc_datetime
           gap_points fence params_gap gap_visits gap_run).
Defined.

Lemma find_visits_datetimes_witness :
  Forall (fun v =>
            utc_datetime (start_ms v) "UTC" = Some (start_dt v) /\
            utc_datetime (end_ms v) "UTC" = Some (end_dt v)) gap_visits.
Proof.
  exact (find_visits_datetimes haversine_at utc_datetime
           gap_points fence params_gap gap_visits gap_run).
Defined.

Lemma find_visits_total_within_span_witness :
  total_ms gap_visits <= 100060000 - 1000.
Proof.
  apply (find_visits_total_within_span haversine_at utc_datetime
           gap_points fence params_gap gap_visits 1000 100060000 gap_run).
  - lia.
  - repeat (constructor; [simpl; lia|]). constructor.
Defined.

(** The spec's jitter example: inside at 0 s and 60 s, outside at 120 s and
    130 s, inside again at 200 s. *)
Lemma jitter_is_debounced_witness :
  run_loop haversine_at utc_datetime fence (default_params "UTC")
    [sample_out 120000; sample_out 130000; sample_in 200000]
    locals_two_inside
  = Some (mkLocals [] true 0 200000 200000 None 3 1
            "start_at_first_inside" (sample_in 200000) true).
Proof.
  apply (jitter_is_debounced haversine_at utc_datetime fence
           (default_params "UTC") locals_two_inside (sample_out 120000)
           (sample_in 200000) [sample_out 130000]).
  - reflexivity.
  - repeat (constructor; [split; reflexivity|]). constructor.
  - reflexivity.
  - right. vm_compute. discriminate.
Defined.

Lemma overlap_seconds_adjacent_witness :
  (_overlap_seconds (mkVisit 1 (utc 1000) (utc 5000) 1000 5000 2 "exit_grace")
     0 2000
   == div1000 1000)%Q /\
  (_overlap_seconds (mkVisit 1 (utc 1000) (utc 5000) 1000 5000 2 "exit_grace")
     2000 4000
   == div1000 2000)%Q /\
  (_overlap_seconds (mkVisit 1 (utc 1000) (utc 5000) 1000 5000 2 "exit_grace")
     0 4000
   == div1000 (1000 + 2000))%Q.
Proof.
  apply (overlap_seconds_adjacent
           (mkVisit 1 (utc 1000) (utc 5000) 1000 5000 2 "exit_grace")
           0 2000 4000); lia.
Defined.

Lemma main_day_seconds_days_witness :
  (exists day_seconds,
      main_day_seconds utc_midnight_ms stored_visits 0 1 = Some day_seconds /\
      map fst day_seconds = [0; 1] /\
      Forall (fun kv : Z * float => (0 <= snd kv)%Q) day_seconds) /\
  (forall v,
      (_overlap_seconds v 0 172800000
       == div1000
            (days_overlap_ms v
               [(0, 0, 86400000); (1, 86400000, 172800000)]%Z))%Q).
Proof.
  apply (main_day_seconds_days utc_midnight_ms).
  - intro d. unfold utc_midnight_ms. lia.
  - lia.
Defined.

Lemma delta_stats_ordered_witness :
  1 <= 3 /\
  (0 <= div1000 1000)%Q /\
  (div1000 1000 <= div1000 2000 <= div1000 8000)%Q /\
  (div1000 1000 <= div1000 2000 <= div1000 8000)%Q /\
  (3 <= 3 -> (div1000 2000 <= div1000 2000)%Q).
Proof.
  apply (delta_stats_ordered [0; 1000; 3000; 2000; 10000]
           (mkDeltaStats 3 (div1000 1000) (div1000 2000) (div1000 2000)
              (div1000 8000))).
  reflexivity.
Defined.

Lemma no_duplicates_order_free_witness :
  find_visits haversine_at utc_datetime
    [sample_out 120000; sample_in 60000; sample_in 0] fence
    (default_params "UTC")
  = find_visits haversine_at utc_datetime
      [sample_in 0; sample_in 60000; sample_out 120000] fence
      (default_params "UTC").
Proof.
  apply no_duplicates_order_free.
  - reflexivity.
  - apply perm_trans with [sample_in 0; sample_out 120000; sample_in 60000].
    + apply perm_skip, perm_swap.
    + apply perm_trans
        with [sample_out 120000; sample_in 0; sample_in 60000].
      * apply perm_swap.
      * apply perm_skip, perm_swap.
Defined.

Lemma _cmd_find_visits_within_range_witness :
  Forall (fun v =>
            (forall s, Some 50000000 = Some s -> s <= start_ms v) /\
            (forall e, @None Z = Some e -> end_ms v <= e))
    [mkVisit 1 (utc 100000000) (utc 100060000) 100000000 100060000 2
       "start_at_first_inside"].
Proof.
  apply (_cmd_find_visits_within_range haversine_at utc_datetime
           gap_points (Some 50000000) None fence params_gap).
  vm_compute. reflexivity.
Defined.

Lemma find_visits_never_start_at_inside_witness :
  Forall (fun v => method v <> "start_at_inside"%string) gap_visits.
Proof.
  exact (find_visits_never_start_at_inside haversine_at utc_datetime
           gap_points fence params_gap gap_visits gap_run).
Defined.

Lemma clipped_seconds_within_duration_witness :
  clipped_seconds (Some 0) (Some 9000) 1000 5000
  = duration_seconds
      (mkVisit 1 (utc 1000) (utc 5000) 1000 5000 2 "exit_grace").
Proof.
  refine (proj2 (clipped_seconds_within_duration None None)
            (mkVisit 1 (utc 1000) (utc 5000) 1000 5000 2 "exit_grace")
            0 9000 _ _); simpl; lia.
Defined.

Lemma _format_hhmmss_fields_witness :
  exists h m sec,
    _format_hhmmss (36615 # 10)
    = (fmt_02d h ++ ":" ++ fmt_02d m ++ ":" ++ fmt_02d sec)%string /\
    0 <= m < 60 /\ 0 <= sec < 60 /\
    h * 3600 + m * 60 + sec = py_round (36615 # 10) /\
    (inject_Z (h * 3600 + m * 60 + sec) - (1 # 2) <= 36615 # 10
     <= inject_Z (h * 3600 + m * 60 + sec) + (1 # 2))%Q /\
    (0 <= py_round (36615 # 10) < 360000 ->
     String.length (_format_hhmmss (36615 # 10)) = 8%nat).
Proof. exact (_format_hhmmss_fields (36615 # 10)). Defined.

Lemma _hhmmss_clamps_witness :
  _hhmmss (- (5 # 2)) = "00:00:00"%string /\
  _hhmmss (36615 # 10) = _format_hhmmss (36615 # 10).
Proof.
  split.
  - apply (proj1 (_hhmmss_clamps (- (5 # 2)))). vm_compute. discriminate.
  - apply (proj2 (_hhmmss_clamps (36615 # 10))). vm_compute. discriminate.
Defined.

Lemma delta_stats_defined_witness :
  delta_stats [7000] = None /\
  exists r, delta_stats [0; 1000; 3000] = Some r /\ count r = 3 - 1.
Proof.
  split.
  - apply (proj1 (delta_stats_defined [7000])). simpl. lia.
  - apply (proj1 (proj2 (delta_stats_defined [0; 1000; 3000]))).
    + simpl. lia.
    + repeat constructor; lia.
Defined.

Lemma inspect_points_no_duplicates_witness :
  duplicates_geo_time
    (inspect_points [sample_in 0; sample_out 120000; sample_in 60000])
  = 0.
Proof.
  apply (proj2 (inspect_points_no_duplicates
                  [sample_in 0; sample_out 120000; sample_in 60000])).
  repeat constructor; simpl; intuition discriminate.
Defined.
